(** * Efotos: local media synchronisation

  A shallow embedding of the server-side routine that reconciles the two
  local media directories with the content store:

  - [fileScanner]   : the directory scanner ([scanDirectory],
                      [scanLocalMediaFiles], [convertToInsertContent]);
  - [localFileSync] : the sync engine ([syncLocalMediaFiles]) and the
                      process-wide lock around it ([syncWithLock]).

  Asynchronous code is modelled by explicit state passing: a computation
  takes the machine state (file system, store, lock flag, the result object
  of the run in progress, and the trace of external calls) and gives back
  an outcome - a returned value or a thrown error - with the new state. *)

From stdpp Require Import base strings list gmap pretty.
From Stdlib Require Import Ascii String.

Local Open Scope string_scope.

(** ** JavaScript values used by the code *)

(** The text an error value is rendered to by a template literal. *)
Definition Err := string.

(** A property that may be [undefined], [null] or hold a value. *)
Inductive Nullable (A : Type) : Type :=
| Undefined
| Null
| Value (a : A).
Arguments Undefined {A}.
Arguments Null {A}.
Arguments Value {A} a.

(** Truthiness of a string-valued property: [undefined], [null] and the
    empty string are falsy. *)
Definition truthy (v : Nullable string) : bool :=
  match v with
  | Value s => negb (bool_decide (s = ""))
  | _ => false
  end.

(** [fileInfo.duration] read from an object whose optional property may be
    absent. *)
Definition readOptional {A} (o : option A) : Nullable A :=
  match o with
  | Some a => Value a
  | None => Undefined
  end.

(** ** Strings and paths *)

Module Str.

Definition lowerChar (c : ascii) : ascii :=
  let n := nat_of_ascii c in
  if (65 <=? n)%nat && (n <=? 90)%nat then ascii_of_nat (n + 32) else c.

(** [String.prototype.toLowerCase], on the ASCII letters. *)
Fixpoint toLowerCase (s : string) : string :=
  match s with
  | "" => ""
  | String c s' => String (lowerChar c) (toLowerCase s')
  end.

Definition endsWith (s suffix : string) : bool :=
  String.prefix (String.rev suffix) (String.rev s).

(** The first [n] characters of [s]. *)
Fixpoint take (n : nat) (s : string) : string :=
  match n, s with
  | S n', String c s' => String c (take n' s')
  | _, _ => ""
  end.

End Str.

Module Path.

(** [path.join(a, b)] for a normalised [a] without a trailing separator
    and a single path component [b]. *)
Definition join (a b : string) : string := a +:+ "/" +:+ b.

(** The suffix of [s] that starts at its last dot, when [s] has one. *)
Fixpoint fromLastDot (s : string) : option string :=
  match s with
  | "" => None
  | String c s' =>
      match fromLastDot s' with
      | Some e => Some e
      | None => if bool_decide (c = "."%char) then Some s else None
      end
  end.

(** [path.extname(file)] for a single path component: from the last dot
    to the end; empty when there is no dot, when the last dot is the first
    character, and for [".."]. *)
Definition extname (file : string) : string :=
  match file with
  | "" => ""
  | String _ rest =>
      if bool_decide (file = "..") then ""
      else default "" (fromLastDot rest)
  end.

(** [path.basename(file, ext)] for a single path component. *)
Definition basename (file ext : string) : string :=
  if bool_decide (ext = "") || (String.length file <? String.length ext)%nat
  then file
  else if bool_decide (ext = file) then ""
  else if Str.endsWith file ext
       then Str.take (String.length file - String.length ext) file
       else file.

End Path.

(** ** fileScanner: data *)

Inductive MediaType := image | video.

Global Instance MediaType_eq_dec : EqDecision MediaType.
Proof. solve_decision. Defined.

Record LocalFileInfo := {
  title : string;
  type : MediaType;
  localFilePath : string;
  mimeType : string;
  fileSize : N;
  duration : option N;
}.

(** Modelled from the spec: the shared schema module is not among the
    sources.  An insert request carries the fields that
    [convertToInsertContent] fills in. *)
Record InsertContent := {
  ic_title : string;
  ic_type : MediaType;
  ic_localFilePath : string;
  ic_mimeType : string;
  ic_fileSize : N;
  ic_duration : Nullable N;
  ic_googleDriveId : Nullable string;
  ic_googleDriveUrl : Nullable string;
}.

(** Modelled from the spec: the shared schema module is not among the
    sources.  A content record is keyed by an opaque id and mirrors the
    fields of a file descriptor, plus the remote-storage id and URL. *)
Record Content := {
  c_id : nat;
  c_title : string;
  c_type : MediaType;
  c_localFilePath : Nullable string;
  c_mimeType : string;
  c_fileSize : N;
  c_duration : Nullable N;
  c_googleDriveId : Nullable string;
  c_googleDriveUrl : Nullable string;
}.

Definition IMAGE_EXTENSIONS : list string :=
  [".jpg"; ".jpeg"; ".png"; ".gif"; ".webp"; ".bmp"].
Definition VIDEO_EXTENSIONS : list string :=
  [".mp4"; ".mov"; ".avi"; ".mkv"; ".webm"; ".m4v"].

Definition mimeTypes : list (string * string) :=
  [ (".jpg", "image/jpeg"); (".jpeg", "image/jpeg"); (".png", "image/png");
    (".gif", "image/gif"); (".webp", "image/webp"); (".bmp", "image/bmp");
    (".mp4", "video/mp4"); (".mov", "video/quicktime");
    (".avi", "video/x-msvideo"); (".mkv", "video/x-matroska");
    (".webm", "video/webm"); (".m4v", "video/x-m4v") ].

Fixpoint assoc (k : string) (t : list (string * string)) : option string :=
  match t with
  | [] => None
  | (k', v) :: t' => if bool_decide (k' = k) then Some v else assoc k t'
  end.

Definition getMimeType (extension : string) : string :=
  default "application/octet-stream" (assoc (Str.toLowerCase extension) mimeTypes).

Definition includes (l : list string) (x : string) : bool :=
  bool_decide (x ∈ l).

Definition convertToInsertContent (fileInfo : LocalFileInfo) : InsertContent :=
  {| ic_title := title fileInfo;
     ic_type := type fileInfo;
     ic_localFilePath := localFilePath fileInfo;
     ic_mimeType := mimeType fileInfo;
     ic_fileSize := fileSize fileInfo;
     ic_duration := readOptional (duration fileInfo);
     ic_googleDriveId := Null;
     ic_googleDriveUrl := Null |}.

(** ** Outcomes of calls that may throw *)

Inductive Outcome (A : Type) : Type :=
| Return (a : A)
| Throw (e : Err).
Arguments Return {A} a.
Arguments Throw {A} e.

(** ** The file system, as the calls of [fs/promises] see it *)

Record FileSystem := {
  (** [fs.access(p)] resolves *)
  accessible : string → bool;
  (** [fs.readdir(p)] *)
  entries : string → Outcome (list string);
  (** [(await fs.stat(p)).size] *)
  statSize : string → Outcome N;
  (** the error with which [fs.mkdir(p, {recursive: true})] rejects *)
  mkdirError : string → option Err;
}.

Definition isAncestor (q p : string) : bool := String.prefix (q +:+ "/") p.

(** The file system after [fs.mkdir(p, {recursive: true})] resolved: [p] and
    its ancestors exist; [p] is an empty directory unless it was there. *)
Definition afterMkdir (p : string) (f : FileSystem) : FileSystem :=
  {| accessible q := bool_decide (q = p) || isAncestor q p || accessible f q;
     entries q :=
       if bool_decide (q = p) && negb (accessible f p) then Return []
       else entries f q;
     statSize := statSize f;
     mkdirError := mkdirError f |}.

(** ** localFileSync: data *)

Record SyncResult := {
  added : nat;
  removed : nat;
  unchanged : nat;
  errors : list string;
}.

(** ** External calls, in the order they are issued *)

Inductive Event :=
| FsAccess (p : string)
| FsMkdir (p : string) (recursive : bool)
| FsReaddir (p : string)
| FsStat (p : string)
| ConsoleLog (msg : string)
| ConsoleError (msg : string)
| GetAllContent
| GetContentByLocalPath (p : string)
| CreateContent (c : InsertContent)
| DeleteContentByLocalPath (p : string).

Definition isStoreMutation (e : Event) : bool :=
  match e with
  | CreateContent _ | DeleteContentByLocalPath _ => true
  | _ => false
  end.

Definition isErrorReport (e : Event) : bool :=
  match e with
  | ConsoleError _ => true
  | _ => false
  end.

(** ** The content store interface *)

(** The storage module is not among the sources; the sync engine is written
    against its interface, whose every call may change the store and may
    throw. *)
Class IStorage (S : Type) := {
  getAllContent : S → Outcome (list Content) * S;
  getContentByLocalPath : string → S → Outcome (option Content) * S;
  createContent : InsertContent → S → Outcome Content * S;
  deleteContentByLocalPath : string → S → Outcome unit * S;
}.

(** ** The machine state and computations over it *)

Record Machine (S : Type) := {
  fs : FileSystem;
  store : S;
  (** the module-level flag of localFileSync *)
  isSyncing : bool;
  (** the [result] object of the sync run in progress *)
  result : SyncResult;
  trace : list Event;
}.
Arguments fs {S} m.
Arguments store {S} m.
Arguments isSyncing {S} m.
Arguments result {S} m.
Arguments trace {S} m.
Arguments Build_Machine {S}.

Section Computations.
Context {S : Type}.

Definition M (A : Type) : Type := Machine S → Outcome A * Machine S.

Definition ret {A} (a : A) : M A := λ m, (Return a, m).

Definition throw {A} (e : Err) : M A := λ m, (Throw e, m).

Definition bind {A B} (c : M A) (k : A → M B) : M B :=
  λ m, match c m with
       | (Return a, m') => k a m'
       | (Throw e, m') => (Throw e, m')
       end.

(** [try { body } catch (error) { handler }] *)
Definition tryCatch {A} (body : M A) (handler : Err → M A) : M A :=
  λ m, match body m with
       | (Return a, m') => (Return a, m')
       | (Throw e, m') => handler e m'
       end.

(** [try { body } catch { return handler }], followed by [rest]: the
    handler leaves the enclosing function with its value. *)
Definition tryCatchReturn {A B} (body : M A) (handler : Err → M B)
    (rest : A → M B) : M B :=
  λ m, match body m with
       | (Return a, m') => rest a m'
       | (Throw e, m') => handler e m'
       end.

(** [try { body } finally { cleanup }] *)
Definition tryFinally {A} (body : M A) (cleanup : M unit) : M A :=
  λ m, match body m with
       | (o, m') =>
           match cleanup m' with
           | (Return _, m'') => (o, m'')
           | (Throw e, m'') => (Throw e, m'')
           end
       end.

(** [await Promise.all([a, b])].  Both computations are started; the whole
    resolves with both values once both have resolved, and rejects once one
    of them has rejected.  A computation that is still running then is not
    stopped: its calls are made all the same.  The calls of [a] are recorded
    before those of [b]; when both reject, the rejection is that of [a]. *)
Definition promiseAll {A B} (a : M A) (b : M B) : M (A * B) :=
  λ m, match a m with
       | (oa, m1) =>
           match b m1 with
           | (ob, m2) =>
               (match oa, ob with
                | Return x, Return y => Return (x, y)
                | Throw e, _ => Throw e
                | Return _, Throw e => Throw e
                end, m2)
           end
       end.

(** [for (const x of xs) { body }] *)
Fixpoint forOf {A} (xs : list A) (body : A → M unit) : M unit :=
  match xs with
  | [] => ret tt
  | x :: xs' => bind (body x) (λ _, forOf xs' body)
  end.

Definition emit (e : Event) : M unit :=
  λ m, (Return tt, {| fs := fs m; store := store m; isSyncing := isSyncing m;
                      result := result m; trace := trace m ++ [e] |}).

Definition setFs (f : FileSystem) : M unit :=
  λ m, (Return tt, {| fs := f; store := store m; isSyncing := isSyncing m;
                      result := result m; trace := trace m |}).

Definition setStore (s : S) : M unit :=
  λ m, (Return tt, {| fs := fs m; store := s; isSyncing := isSyncing m;
                      result := result m; trace := trace m |}).

Definition setIsSyncing (b : bool) : M unit :=
  λ m, (Return tt, {| fs := fs m; store := store m; isSyncing := b;
                      result := result m; trace := trace m |}).

Definition setResult (r : SyncResult) : M unit :=
  λ m, (Return tt, {| fs := fs m; store := store m; isSyncing := isSyncing m;
                      result := r; trace := trace m |}).

Definition getResult : M SyncResult := λ m, (Return (result m), m).

Definition getIsSyncing : M bool := λ m, (Return (isSyncing m), m).

Definition ofOutcome {A} (o : Outcome A) : M A :=
  match o with
  | Return a => ret a
  | Throw e => throw e
  end.

Definition consoleLog (msg : string) : M unit := emit (ConsoleLog msg).
Definition consoleError (msg : string) : M unit := emit (ConsoleError msg).

(** *** fs/promises *)

Definition fsAccess (p : string) : M unit :=
  bind (emit (FsAccess p)) (λ _ m,
    if accessible (fs m) p then (Return tt, m)
    else (Throw ("Error: ENOENT: no such file or directory, access '" +:+ p +:+ "'"), m)).

Definition fsMkdirRecursive (p : string) : M unit :=
  bind (emit (FsMkdir p true)) (λ _ m,
    match mkdirError (fs m) p with
    | Some e => (Throw e, m)
    | None => setFs (afterMkdir p (fs m)) m
    end).

Definition fsReaddir (p : string) : M (list string) :=
  bind (emit (FsReaddir p)) (λ _ m, ofOutcome (entries (fs m) p) m).

Definition fsStat (p : string) : M N :=
  bind (emit (FsStat p)) (λ _ m, ofOutcome (statSize (fs m) p) m).

(** *** the store, through its interface *)

Context `{!IStorage S}.

Definition callStore {A} (e : Event) (op : S → Outcome A * S) : M A :=
  bind (emit e) (λ _ m,
    match op (store m) with
    | (o, s') => bind (setStore s') (λ _, ofOutcome o) m
    end).

Definition storageGetAllContent : M (list Content) :=
  callStore GetAllContent getAllContent.
Definition storageGetContentByLocalPath (p : string) : M (option Content) :=
  callStore (GetContentByLocalPath p) (getContentByLocalPath p).
Definition storageCreateContent (c : InsertContent) : M Content :=
  callStore (CreateContent c) (createContent c).
Definition storageDeleteContentByLocalPath (p : string) : M unit :=
  callStore (DeleteContentByLocalPath p) (deleteContentByLocalPath p).

End Computations.

Declare Scope comp_scope.
Delimit Scope comp_scope with comp.
Notation "'let!' x ':=' c1 'in' c2" := (bind c1 (λ x, c2))
  (at level 10, x name, c1 at level 100, c2 at level 200) : comp_scope.
Notation "c1 >> c2" := (bind c1 (λ _, c2))
  (at level 100, c2 at level 200, right associativity) : comp_scope.
Local Open Scope comp_scope.

(** ** fileScanner: the scanner *)

Section Scanner.
Context {S : Type}.
(** [process.cwd()] *)
Variable cwd : string.

Definition MEDIA_DIR : string := Path.join cwd "server/media".
Definition IMAGES_DIR : string := Path.join MEDIA_DIR "images".
Definition VIDEOS_DIR : string := Path.join MEDIA_DIR "videos".

Definition getFileStats (filePath : string) : M (S:=S) N :=
  let! size := fsStat filePath in
  ret size.

(** The body of the loop over the directory entries: [fileInfos] is the
    array built so far. *)
Definition scanEntry (dirPath : string) (type : MediaType)
    (allowedExtensions : list string) (file : string)
    (fileInfos : list LocalFileInfo) : M (S:=S) (list LocalFileInfo) :=
  let filePath := Path.join dirPath file in
  let ext := Str.toLowerCase (Path.extname file) in
  if includes allowedExtensions ext then
    tryCatch
      (let! size := getFileStats filePath in
       let title := Path.basename file ext in
       ret (fileInfos ++ [ {| title := title;
                              type := type;
                              localFilePath := filePath;
                              mimeType := getMimeType ext;
                              fileSize := size;
                              duration := None |} ])%list)
      (λ error,
         consoleError ("Error processing file " +:+ file +:+ ": " +:+ error) >>
         ret fileInfos)
  else ret fileInfos.

Fixpoint scanEntries (dirPath : string) (type : MediaType)
    (allowedExtensions : list string) (files : list string)
    (fileInfos : list LocalFileInfo) : M (S:=S) (list LocalFileInfo) :=
  match files with
  | [] => ret fileInfos
  | file :: files' =>
      let! fileInfos' := scanEntry dirPath type allowedExtensions file fileInfos in
      scanEntries dirPath type allowedExtensions files' fileInfos'
  end.

Definition scanDirectory (dirPath : string) (type : MediaType)
    (allowedExtensions : list string) : M (S:=S) (list LocalFileInfo) :=
  tryCatchReturn (fsAccess dirPath)
    (λ _,
       consoleLog ("Directory " +:+ dirPath +:+ " does not exist, creating it...") >>
       fsMkdirRecursive dirPath >>
       ret [])
    (λ _,
       let! files := fsReaddir dirPath in
       scanEntries dirPath type allowedExtensions files []).

(** The two scans of [Promise.all] touch different directories.  Both are
    made, also when one of them throws. *)
Definition scanLocalMediaFiles : M (S:=S) (list LocalFileInfo) :=
  consoleLog "Scanning local media files..." >>
  let! both := promiseAll (scanDirectory IMAGES_DIR image IMAGE_EXTENSIONS)
                          (scanDirectory VIDEOS_DIR video VIDEO_EXTENSIONS) in
  let images := both.1 in
  let videos := both.2 in
  let allFiles := (images ++ videos)%list in
  consoleLog ("Found " +:+ pretty (List.length images) +:+ " images and "
              +:+ pretty (List.length videos) +:+ " videos") >>
  ret allFiles.

End Scanner.

(** ** localFileSync: the sync engine and its lock *)

Definition freshResult : SyncResult :=
  {| added := 0; removed := 0; unchanged := 0; errors := [] |}.

Definition incAdded (r : SyncResult) : SyncResult :=
  {| added := added r + 1; removed := removed r; unchanged := unchanged r;
     errors := errors r |}.

Definition incRemoved (r : SyncResult) : SyncResult :=
  {| added := added r; removed := removed r + 1; unchanged := unchanged r;
     errors := errors r |}.

Definition incUnchanged (r : SyncResult) : SyncResult :=
  {| added := added r; removed := removed r; unchanged := unchanged r + 1;
     errors := errors r |}.

Definition pushError (msg : string) (r : SyncResult) : SyncResult :=
  {| added := added r; removed := removed r; unchanged := unchanged r;
     errors := (errors r ++ [msg])%list |}.

(** The string held by a truthy path property. *)
Definition pathOf (v : Nullable string) : string :=
  match v with
  | Value s => s
  | _ => ""
  end.

Section SyncEngine.
Context {S : Type} `{!IStorage S}.
Variable cwd : string.

Definition updateResult (f : SyncResult → SyncResult) : M (S:=S) unit :=
  let! r := getResult in
  setResult (f r).

(** The body of the loop over the scanned files. *)
Definition additionStep (fileInfo : LocalFileInfo) : M (S:=S) unit :=
  tryCatch
    (let! existing := storageGetContentByLocalPath (localFilePath fileInfo) in
     match existing with
     | None =>
         storageCreateContent (convertToInsertContent fileInfo) >>
         updateResult incAdded >>
         consoleLog ("Added: " +:+ title fileInfo)
     | Some _ =>
         updateResult incUnchanged
     end)
    (λ error,
       let errorMsg := "Error adding " +:+ title fileInfo +:+ ": " +:+ error in
       consoleError errorMsg >>
       updateResult (pushError errorMsg)).

(** The body of the loop over the store records that have a local path. *)
Definition removalStep (localFilePaths : gset string) (dbContent : Content)
    : M (S:=S) unit :=
  if negb (truthy (c_localFilePath dbContent)) then ret tt
  else
    let p := pathOf (c_localFilePath dbContent) in
    if negb (bool_decide (p ∈ localFilePaths)) then
      tryCatch
        (fsAccess p >>
         updateResult incUnchanged)
        (λ _,
           storageDeleteContentByLocalPath p >>
           updateResult incRemoved >>
           consoleLog ("Removed (file deleted): " +:+ c_title dbContent))
    else ret tt.

(** What runs inside the outer [try] of [syncLocalMediaFiles]. *)
Definition syncBody : M (S:=S) unit :=
  let! localFiles := scanLocalMediaFiles cwd in
  let! allContent := storageGetAllContent in
  let localFilePaths : gset string :=
    list_to_set (List.map localFilePath localFiles) in
  let dbLocalContent :=
    List.filter (λ c, truthy (c_localFilePath c)) allContent in
  forOf localFiles additionStep >>
  forOf dbLocalContent (removalStep localFilePaths) >>
  let! r := getResult in
  consoleLog ("Sync complete: +" +:+ pretty (added r) +:+ ", -"
              +:+ pretty (removed r) +:+ ", =" +:+ pretty (unchanged r)).

Definition syncLocalMediaFiles : M (S:=S) SyncResult :=
  consoleLog "Starting local media sync..." >>
  setResult freshResult >>
  tryCatch syncBody
    (λ error,
       let errorMsg := "Sync failed: " +:+ error in
       consoleError errorMsg >>
       updateResult (pushError errorMsg)) >>
  getResult.

(** The body of [syncWithLock], with the engine it awaits as a
    parameter. *)
Definition runExclusive {A} (engine : M (S:=S) A) : M (S:=S) (option A) :=
  let! busy := getIsSyncing in
  if busy : bool then
    consoleLog "Sync already in progress, skipping..." >>
    ret None
  else
    setIsSyncing true >>
    tryFinally
      (let! r := engine in ret (Some r))
      (setIsSyncing false).

Definition syncWithLock : M (S:=S) (option SyncResult) :=
  runExclusive syncLocalMediaFiles.

End SyncEngine.

(** ** A reference content store *)

Global Instance Nullable_eq_dec {A} `{EqDecision A} : EqDecision (Nullable A).
Proof. solve_decision. Defined.

(** Modelled from the spec: the storage module is not among the sources.
    The store keeps the content records in insertion order and hands out
    fresh ids; lookup by path gives the first record with that local path,
    delete by path drops the records with that local path. *)
Record MemStorage := {
  records : list Content;
  nextId : nat;
}.

Definition hasPath (p : string) (c : Content) : bool :=
  bool_decide (c_localFilePath c = Value p).

Definition contentOfInsert (id : nat) (ic : InsertContent) : Content :=
  {| c_id := id;
     c_title := ic_title ic;
     c_type := ic_type ic;
     c_localFilePath := Value (ic_localFilePath ic);
     c_mimeType := ic_mimeType ic;
     c_fileSize := ic_fileSize ic;
     c_duration := ic_duration ic;
     c_googleDriveId := ic_googleDriveId ic;
     c_googleDriveUrl := ic_googleDriveUrl ic |}.

Global Instance MemStorage_IStorage : IStorage MemStorage := {
  getAllContent s := (Return (records s), s);
  getContentByLocalPath p s := (Return (List.find (hasPath p) (records s)), s);
  createContent ic s :=
    let c := contentOfInsert (nextId s) ic in
    (Return c, {| records := (records s ++ [c])%list; nextId := nextId s + 1 |});
  deleteContentByLocalPath p s :=
    (Return tt, {| records := List.filter (λ c, negb (hasPath p c)) (records s);
                   nextId := nextId s |});
}.

Definition emptyStore : MemStorage := {| records := []; nextId := 1 |}.

Definition initialMachine {S} (f : FileSystem) (s : S) : Machine S :=
  {| fs := f; store := s; isSyncing := false; result := freshResult;
     trace := [] |}.

(** ** Notions used in the statements *)

Definition isStoreCall (e : Event) : bool :=
  match e with
  | GetAllContent | GetContentByLocalPath _ | CreateContent _
  | DeleteContentByLocalPath _ => true
  | _ => false
  end.

(** The descriptor that [scanDirectory] pushes for the entry [file], when it
    pushes one: the extension is allowed and the stat succeeds. *)
Definition describe (stat : string → Outcome N) (dirPath : string)
    (type : MediaType) (allowedExtensions : list string) (file : string)
    : option LocalFileInfo :=
  let ext := Str.toLowerCase (Path.extname file) in
  if includes allowedExtensions ext then
    match stat (Path.join dirPath file) with
    | Return size =>
        Some {| title := Path.basename file ext;
                type := type;
                localFilePath := Path.join dirPath file;
                mimeType := getMimeType ext;
                fileSize := size;
                duration := None |}
    | Throw _ => None
    end
  else None.

(** A store record that the removal pass looks at: it has a local path and
    the path is not among the scanned ones. *)
Definition outsideScan (scanned : gset string) (c : Content) : bool :=
  truthy (c_localFilePath c) &&
  negb (bool_decide (pathOf (c_localFilePath c) ∈ scanned)).

(** ... and whose path is still accessible on the file system. *)
Definition stillAccessible (f : FileSystem) (scanned : gset string)
    (c : Content) : bool :=
  outsideScan scanned c && accessible f (pathOf (c_localFilePath c)).

(** ... and whose path is not accessible any more. *)
Definition gone (f : FileSystem) (scanned : gset string) (c : Content) : bool :=
  outsideScan scanned c && negb (accessible f (pathOf (c_localFilePath c))).

(** The store calls of the addition pass over [files]: lookups, and
    creations of a record converted from one of the files. *)
Definition additionCall (files : list LocalFileInfo) (e : Event) : Prop :=
  match e with
  | CreateContent c => ∃ info, info ∈ files ∧ c = convertToInsertContent info
  | DeleteContentByLocalPath _ | GetAllContent => False
  | _ => True
  end.

(** The store calls of the removal pass over [records]: deletions by the
    path of a record that is outside the scan and not accessible. *)
Definition removalCall (f : FileSystem) (scanned : gset string)
    (records : list Content) (e : Event) : Prop :=
  match e with
  | DeleteContentByLocalPath p =>
      ∃ c, c ∈ records ∧ gone f scanned c = true ∧
           p = pathOf (c_localFilePath c)
  | CreateContent _ | GetAllContent | GetContentByLocalPath _ => False
  | _ => True
  end.

(** The paths of the scanned files, as the engine collects them. *)
Definition scannedPaths (files : list LocalFileInfo) : gset string :=
  list_to_set (List.map localFilePath files).

(** The store calls of a sync run that scanned [files] and listed [all]:
    creations of a record converted from a scanned file, and deletions by
    the path of a listed record that is outside the scan and not
    accessible. *)
Definition syncCall (f : FileSystem) (files : list LocalFileInfo)
    (all : list Content) (e : Event) : Prop :=
  match e with
  | CreateContent c => ∃ info, info ∈ files ∧ c = convertToInsertContent info
  | DeleteContentByLocalPath p =>
      ∃ c, c ∈ all ∧ gone f (scannedPaths files) c = true ∧
           p = pathOf (c_localFilePath c)
  | _ => True
  end.

(** The entries of a directory listing that pass the extension filter. *)
Definition matching (allowedExtensions : list string) (files : list string)
    : list string :=
  List.filter
    (λ file, includes allowedExtensions (Str.toLowerCase (Path.extname file)))
    files.

(** [fs.stat(p)] rejects. *)
Definition statFails (f : FileSystem) (p : string) : bool :=
  match statSize f p with
  | Throw _ => true
  | Return _ => false
  end.

(** The paths of the entries of both media directories that pass the
    extension filter, for the listings [imgs] and [vids]. *)
Definition candidates (cwd : string) (imgs vids : list string) : list string :=
  (List.map (Path.join (IMAGES_DIR cwd)) (matching IMAGE_EXTENSIONS imgs) ++
   List.map (Path.join (VIDEOS_DIR cwd)) (matching VIDEO_EXTENSIONS vids))%list.

(** The entries that the scan of [dirPath] goes through: the listing of the
    directory when it is there, none when it is missing and gets created. *)
Definition scannedEntries (f : FileSystem) (dirPath : string)
    : Outcome (list string) :=
  if accessible f dirPath then entries f dirPath
  else
    match mkdirError f dirPath with
    | Some e => Throw e
    | None => Return []
    end.


(** What [scanDirectory] returns and the file system it leaves. *)
Definition scanDirectoryResult (f : FileSystem) (dirPath : string)
    (type : MediaType) (allowedExtensions : list string)
    : Outcome (list LocalFileInfo) * FileSystem :=
  if accessible f dirPath then
    match entries f dirPath with
    | Return files =>
        (Return (omap (describe (statSize f) dirPath type allowedExtensions) files), f)
    | Throw e => (Throw e, f)
    end
  else
    match mkdirError f dirPath with
    | Some e => (Throw e, f)
    | None => (Return [], afterMkdir dirPath f)
    end.

(** What [scanLocalMediaFiles] returns and the file system it leaves. *)
Definition scanResult (cwd : string) (f : FileSystem)
    : Outcome (list LocalFileInfo) * FileSystem :=
  match scanDirectoryResult f (IMAGES_DIR cwd) image IMAGE_EXTENSIONS with
  | (oi, f1) =>
      match scanDirectoryResult f1 (VIDEOS_DIR cwd) video VIDEO_EXTENSIONS with
      | (ov, f2) =>
          (match oi, ov with
           | Return images, Return videos => Return (images ++ videos)%list
           | Throw e, _ => Throw e
           | Return _, Throw e => Throw e
           end, f2)
      end
  end.

Section Statements.
Context {S : Type}.

(** The state in which the outer [try] of a sync run is entered. *)
Definition startRun (m : Machine S) : Machine S :=
  {| fs := fs m; store := store m; isSyncing := isSyncing m;
     result := freshResult;
     trace := trace m ++ [ConsoleLog "Starting local media sync..."] |}.

(** The state after the outer [catch] handled [error]. *)
Definition syncFailed (error : Err) (m : Machine S) : Machine S :=
  {| fs := fs m; store := store m; isSyncing := isSyncing m;
     result := pushError ("Sync failed: " +:+ error) (result m);
     trace := trace m ++ [ConsoleError ("Sync failed: " +:+ error)] |}.


(** The state in which the engine runs under the lock. *)
Definition acquire (m : Machine S) : Machine S :=
  {| fs := fs m; store := store m; isSyncing := true;
     result := result m; trace := trace m |}.

Definition release (m : Machine S) : Machine S :=
  {| fs := fs m; store := store m; isSyncing := false;
     result := result m; trace := trace m |}.

(** [m'] extends the trace of [m] by calls that all satisfy [P]. *)
Definition extends (P : Event → Prop) (m m' : Machine S) : Prop :=
  ∃ new, trace m' = (trace m ++ new)%list ∧ Forall P new.

(** [m'] extends the trace of [m] by calls of which [n] print an error. *)
Definition reports (n : nat) (m m' : Machine S) : Prop :=
  ∃ new, trace m' = (trace m ++ new)%list ∧
         List.length (List.filter isErrorReport new) = n.

(** [m'] differs from [m] in its trace only. *)
Definition sameButTrace (m m' : Machine S) : Prop :=
  fs m' = fs m ∧ store m' = store m ∧ isSyncing m' = isSyncing m ∧
  result m' = result m.

End Statements.


(** ** A store whose calls can fail *)

(** The reference store behind a connection that rejects the creations and
    the deletions for the listed paths. *)
Record FlakyStore := {
  mem : MemStorage;
  rejectCreate : list string;
  rejectDelete : list string;
}.

Definition flaky (s : FlakyStore) (mem' : MemStorage) : FlakyStore :=
  {| mem := mem'; rejectCreate := rejectCreate s; rejectDelete := rejectDelete s |}.

Global Instance FlakyStore_IStorage : IStorage FlakyStore := {
  getAllContent s := (Return (records (mem s)), s);
  getContentByLocalPath p s :=
    (Return (List.find (hasPath p) (records (mem s))), s);
  createContent ic s :=
    if bool_decide (ic_localFilePath ic ∈ rejectCreate s)
    then (Throw "Error: insert failed", s)
    else let '(o, mem') := createContent ic (mem s) in (o, flaky s mem');
  deleteContentByLocalPath p s :=
    if bool_decide (p ∈ rejectDelete s)
    then (Throw "Error: delete failed", s)
    else let '(o, mem') := deleteContentByLocalPath p (mem s) in (o, flaky s mem');
}.

(** ** Concrete file systems and stores *)

Definition localRecord (id : nat) (title : string) (type : MediaType)
    (path : string) : Content :=
  {| c_id := id; c_title := title; c_type := type;
     c_localFilePath := Value path; c_mimeType := "image/png";
     c_fileSize := 1024; c_duration := Null;
     c_googleDriveId := Null; c_googleDriveUrl := Null |}.

(** Three images, one of which cannot be stat'ed; no video. *)
Definition deniedFs : FileSystem :=
  {| accessible p :=
       bool_decide (p ∈ ["/app/server/media/images"; "/app/server/media/videos"]);
     entries p :=
       if bool_decide (p = "/app/server/media/images")
       then Return ["a.jpg"; "b.png"; "c.jpeg"]
       else if bool_decide (p = "/app/server/media/videos") then Return []
       else Throw "Error: ENOENT: no such file or directory, scandir";
     statSize p :=
       if bool_decide (p = "/app/server/media/images/c.jpeg")
       then Throw "Error: EACCES: permission denied, stat"
       else Return 2048%N;
     mkdirError _ := None |}.

(** One image in the images directory, and a file that exists outside the
    media directories. *)
Definition exportFs : FileSystem :=
  {| accessible p :=
       bool_decide (p ∈ ["/app/server/media/images"; "/app/server/media/videos";
                         "/srv/export/b.png"]);
     entries p :=
       if bool_decide (p = "/app/server/media/images") then Return ["a.jpg"]
       else if bool_decide (p = "/app/server/media/videos") then Return []
       else Throw "Error: ENOENT: no such file or directory, scandir";
     statSize _ := Return 2048%N;
     mkdirError _ := None |}.

(** A store with a record for the file outside the media directories and a
    record for a file that is gone. *)
Definition exportStore : MemStorage :=
  {| records := [localRecord 1 "b" image "/srv/export/b.png";
                 localRecord 2 "old" image "/app/server/media/images/old.png"];
     nextId := 3 |}.

(** Both media directories are there and empty. *)
Definition emptyDirsFs : FileSystem :=
  {| accessible p :=
       bool_decide (p ∈ ["/app/server/media/images"; "/app/server/media/videos"]);
     entries p :=
       if bool_decide (p ∈ ["/app/server/media/images"; "/app/server/media/videos"])
       then Return []
       else Throw "Error: ENOENT: no such file or directory, scandir";
     statSize _ := Throw "Error: ENOENT: no such file or directory, stat";
     mkdirError _ := None |}.

(** Two records whose files are gone, in a store that rejects the deletion
    of the first. *)
Definition staleStore : FlakyStore :=
  {| mem := {| records := [localRecord 1 "old1" image "/app/server/media/images/old1.png";
                           localRecord 2 "old2" image "/app/server/media/images/old2.png"];
               nextId := 3 |};
     rejectCreate := [];
     rejectDelete := ["/app/server/media/images/old1.png"] |}.

(** Two images, in front of a store that rejects the creation for the
    first. *)
Definition twoImagesFs : FileSystem :=
  {| accessible p :=
       bool_decide (p ∈ ["/app/server/media/images"; "/app/server/media/videos"]);
     entries p :=
       if bool_decide (p = "/app/server/media/images") then Return ["a.jpg"; "b.png"]
       else if bool_decide (p = "/app/server/media/videos") then Return []
       else Throw "Error: ENOENT: no such file or directory, scandir";
     statSize _ := Return 2048%N;
     mkdirError _ := None |}.

Definition pickyStore : FlakyStore :=
  {| mem := emptyStore;
     rejectCreate := ["/app/server/media/images/a.jpg"];
     rejectDelete := [] |}.

(** The three images of [deniedFs], with the videos directory missing. *)
Definition deniedNoVideosFs : FileSystem :=
  {| accessible p := bool_decide (p = "/app/server/media/images");
     entries p :=
       if bool_decide (p = "/app/server/media/images")
       then Return ["a.jpg"; "b.png"; "c.jpeg"]
       else Throw "Error: ENOENT: no such file or directory, scandir";
     statSize p :=
       if bool_decide (p = "/app/server/media/images/c.jpeg")
       then Throw "Error: EACCES: permission denied, stat"
       else Return 2048%N;
     mkdirError _ := None |}.

(** Nothing exists yet, and nothing can be created: the media root is
    read-only. *)
Definition readOnlyFs : FileSystem :=
  {| accessible _ := false;
     entries _ := Throw "Error: ENOENT: no such file or directory, scandir";
     statSize _ := Throw "Error: ENOENT: no such file or directory, stat";
     mkdirError _ := Some "Error: EACCES: permission denied, mkdir" |}.

(** Nothing exists yet, and directories can be created. *)
Definition blankFs : FileSystem :=
  {| accessible _ := false;
     entries _ := Throw "Error: ENOENT: no such file or directory, scandir";
     statSize _ := Throw "Error: ENOENT: no such file or directory, stat";
     mkdirError _ := None |}.

(** The descriptor of [a.jpg] as the scanner gives it. *)
Definition aJpg : LocalFileInfo :=
  {| title := "a"; type := image;
     localFilePath := "/app/server/media/images/a.jpg";
     mimeType := "image/jpeg"; fileSize := 2048; duration := None |}.


(** ** Notions used in the statements about the scanner *)

(** The directory that holds the files of a media type. *)
Definition kindDir (cwd : string) (t : MediaType) : string :=
  match t with
  | image => IMAGES_DIR cwd
  | video => VIDEOS_DIR cwd
  end.

(** The extensions that are allowed for a media type. *)
Definition kindExtensions (t : MediaType) : list string :=
  match t with
  | image => IMAGE_EXTENSIONS
  | video => VIDEO_EXTENSIONS
  end.

(** How the MIME types of a media type start. *)
Definition kindPrefix (t : MediaType) : string :=
  match t with
  | image => "image/"
  | video => "video/"
  end.

(** Scanning directory [d] fails: it is there and cannot be listed, or it
    is missing and cannot be created. *)
Definition dirFails (f : FileSystem) (d : string) : bool :=
  if accessible f d then
    match entries f d with
    | Return _ => false
    | Throw _ => true
    end
  else
    match mkdirError f d with
    | Some _ => true
    | None => false
    end.

(** ** Notions used in the statements about the sync engine *)

Definition isLookup (e : Event) : bool :=
  match e with
  | GetContentByLocalPath _ => true
  | _ => false
  end.

Definition isCreate (e : Event) : bool :=
  match e with
  | CreateContent _ => true
  | _ => false
  end.

Definition isDelete (e : Event) : bool :=
  match e with
  | DeleteContentByLocalPath _ => true
  | _ => false
  end.

(** The local path of a record that has one. *)
Definition valuePath (c : Content) : option string :=
  match c_localFilePath c with
  | Value p => Some p
  | _ => None
  end.

(** No two records have the same local path. *)
Definition uniquePaths (rs : list Content) : Prop :=
  NoDup (omap valuePath rs).

(** The record that the reference store keeps for a scanned descriptor. *)
Definition mirrors (info : LocalFileInfo) (c : Content) : Prop :=
  c_title c = title info ∧ c_type c = type info ∧
  c_localFilePath c = Value (localFilePath info) ∧
  c_mimeType c = mimeType info ∧ c_fileSize c = fileSize info ∧
  c_duration c = Undefined ∧
  c_googleDriveId c = Null ∧ c_googleDriveUrl c = Null.

(** ** A store that is down *)

(** A store whose every call is rejected. *)
Inductive DownStore := Down.

Global Instance DownStore_IStorage : IStorage DownStore := {
  getAllContent s := (Throw "Error: connection refused", s);
  getContentByLocalPath _ s := (Throw "Error: connection refused", s);
  createContent _ s := (Throw "Error: connection refused", s);
  deleteContentByLocalPath _ s := (Throw "Error: connection refused", s);
}.

(** The images directory cannot be listed. *)
Definition unreadableFs : FileSystem :=
  {| accessible p :=
       bool_decide (p ∈ ["/app/server/media/images"; "/app/server/media/videos"]);
     entries p :=
       if bool_decide (p = "/app/server/media/videos") then Return []
       else Throw "Error: EACCES: permission denied, scandir";
     statSize _ := Return 2048%N;
     mkdirError _ := None |}.

(** An image with an upper-case extension next to one with a lower-case
    extension, a dot file and a text file. *)
Definition mixedFs : FileSystem :=
  {| accessible p :=
       bool_decide (p ∈ ["/app/server/media/images"; "/app/server/media/videos"]);
     entries p :=
       if bool_decide (p = "/app/server/media/images")
       then Return ["a.jpg"; "B.PNG"; ".gitkeep"; "notes.txt"]
       else if bool_decide (p = "/app/server/media/videos") then Return ["clip.MP4"]
       else Throw "Error: ENOENT: no such file or directory, scandir";
     statSize _ := Return 2048%N;
     mkdirError _ := None |}.

(** The descriptors that the scanner gives for [mixedFs]. *)
Definition mixedFiles : list LocalFileInfo :=
  [ {| title := "a"; type := image;
       localFilePath := "/app/server/media/images/a.jpg";
       mimeType := "image/jpeg"; fileSize := 2048; duration := None |};
    {| title := "B.PNG"; type := image;
       localFilePath := "/app/server/media/images/B.PNG";
       mimeType := "image/png"; fileSize := 2048; duration := None |};
    {| title := "clip.MP4"; type := video;
       localFilePath := "/app/server/media/videos/clip.MP4";
       mimeType := "video/mp4"; fileSize := 2048; duration := None |} ].
(** * The lock and the outer handler *)

Section Engine.
Context {S : Type} `{!IStorage S}.
Variable cwd : string.

Lemma syncLocalMediaFiles_unfold (m : Machine S) :
  syncLocalMediaFiles cwd m =
  match syncBody cwd (startRun m) with
  | (Return _, mb) => (Return (result mb), mb)
  | (Throw e, mb) => (Return (result (syncFailed e mb)), syncFailed e mb)
  end.
Proof.
  unfold syncLocalMediaFiles, bind at 1 2 3, tryCatch; simpl.
  change {| fs := fs m; store := store m; isSyncing := isSyncing m;
            result := freshResult;
            trace := trace m ++ [ConsoleLog "Starting local media sync..."] |}
    with (startRun m).
  by destruct (syncBody cwd (startRun m)) as [[[]|e] mb].
Qed.

Lemma syncLocalMediaFiles_returns (m : Machine S) :
  ∃ m', syncLocalMediaFiles cwd m = (Return (result m'), m').
Proof.
  rewrite syncLocalMediaFiles_unfold.
  destruct (syncBody cwd (startRun m)) as [[[]|e] mb]; eauto.
Qed.

Lemma runExclusive_unfold {A} (engine : M (S:=S) A) (m : Machine S) :
  runExclusive engine m =
  if isSyncing m
  then (Return None,
        {| fs := fs m; store := store m; isSyncing := isSyncing m;
           result := result m;
           trace := trace m ++ [ConsoleLog "Sync already in progress, skipping..."] |})
  else match engine (acquire m) with
       | (Return r, m') => (Return (Some r), release m')
       | (Throw e, m') => (Throw e, release m')
       end.
Proof.
  unfold runExclusive, bind at 1, getIsSyncing.
  destruct (isSyncing m) eqn:Hbusy.
  { unfold bind, consoleLog, emit, ret. by rewrite Hbusy. }
  unfold bind at 1, tryFinally, bind; simpl.
  change {| fs := fs m; store := store m; isSyncing := true;
            result := result m; trace := trace m |} with (acquire m).
  by destruct (engine (acquire m)) as [[r|e] m'].
Qed.

(** C4. A sync run never raises.  Whatever the file system and the store
    do, [syncLocalMediaFiles] returns a result, which is the result object
    of the run.  When the body of its outer [try] completes, that is the
    result accumulated by the body; when the body throws - the scan
    included - it is the result accumulated up to the throw, with the
    failure appended to [errors]. *)
Theorem syncLocalMediaFiles_never_raises (m : Machine S) :
  ∃ r m',
    syncLocalMediaFiles cwd m = (Return r, m') ∧
    r = result m' ∧
    match syncBody cwd (startRun m) with
    | (Return _, mb) => m' = mb
    | (Throw e, mb) =>
        added r = added (result mb) ∧
        removed r = removed (result mb) ∧
        unchanged r = unchanged (result mb) ∧
        errors r = (errors (result mb) ++ ["Sync failed: " +:+ e])%list ∧
        fs m' = fs mb ∧ store m' = store mb ∧
        trace m' = (trace mb ++ [ConsoleError ("Sync failed: " +:+ e)])%list
    end.
Proof.
  rewrite syncLocalMediaFiles_unfold.
  destruct (syncBody cwd (startRun m)) as [[[]|e] mb];
    eexists _, _; (split; [reflexivity|]); (split; [reflexivity|]); done.
Qed.

(** C5. Invoked while the flag is set, [syncWithLock] returns [null] at
    once: the engine is not run, the only external call is the console
    line, and store, file system and flag are as they were - in
    particular no [createContent] and no [deleteContentByLocalPath] is
    issued. *)
Theorem syncWithLock_skips_while_syncing (m : Machine S) :
  isSyncing m = true →
  ∃ m',
    syncWithLock cwd m = (Return None, m') ∧
    trace m' = (trace m ++ [ConsoleLog "Sync already in progress, skipping..."])%list ∧
    List.filter isStoreMutation (drop (List.length (trace m)) (trace m')) = [] ∧
    store m' = store m ∧ fs m' = fs m ∧ result m' = result m ∧
    isSyncing m' = true.
Proof.
  intros Hbusy. unfold syncWithLock. rewrite runExclusive_unfold, Hbusy.
  eexists; split; [reflexivity|]; simpl.
  by rewrite drop_app_length.
Qed.

(** C6. An invocation that acquired the flag leaves it cleared, whether
    the engine it awaits returns or throws; the engine's outcome is passed
    on.  In particular the next [syncWithLock] is not skipped. *)
Theorem syncWithLock_releases_flag {A} (engine : M (S:=S) A) (m : Machine S) :
  isSyncing m = false →
  isSyncing (runExclusive engine m).2 = false ∧
  (runExclusive engine m).1 =
    match (engine (acquire m)).1 with
    | Return r => Return (Some r)
    | Throw e => Throw e
    end ∧
  isSyncing (syncWithLock cwd m).2 = false ∧
  (∃ r m'', syncWithLock cwd (runExclusive engine m).2 = (Return (Some r), m'')) ∧
  (∃ r m'', syncWithLock cwd (syncWithLock cwd m).2 = (Return (Some r), m'')).
Proof.
  intros Hfree.
  assert (Hnext : ∀ m0 : Machine S, isSyncing m0 = false →
            ∃ r m'', syncWithLock cwd m0 = (Return (Some r), m'')).
  { intros m0 H0. unfold syncWithLock. rewrite runExclusive_unfold, H0.
    destruct (syncLocalMediaFiles_returns (acquire m0)) as [m1 ->]. eauto. }
  assert (Hrel : ∀ B (e : M (S:=S) B), isSyncing (runExclusive e m).2 = false).
  { intros B e. rewrite runExclusive_unfold, Hfree.
    by destruct (e (acquire m)) as [[r|err] m']. }
  repeat split.
  - apply Hrel.
  - rewrite runExclusive_unfold, Hfree.
    by destruct (engine (acquire m)) as [[r|err] m'].
  - apply Hrel.
  - apply Hnext, Hrel.
  - apply Hnext, Hrel.
Qed.

End Engine.

(** * The scanner *)

Section ScannerFacts.
Context {S : Type}.
Variable cwd : string.

Implicit Types (m : Machine S) (P : Event → Prop).

Lemma extends_refl P m : extends P m m.
Proof. exists []. by rewrite app_nil_r. Qed.

Lemma extends_trans P m1 m2 m3 :
  extends P m1 m2 → extends P m2 m3 → extends P m1 m3.
Proof.
  intros (n1 & H1 & F1) (n2 & H2 & F2). exists (n1 ++ n2)%list.
  rewrite H2, H1, app_assoc. split; [done|]. by apply Forall_app.
Qed.

Lemma extends_mono (P P' : Event → Prop) m m' :
  (∀ e, P e → P' e) → extends P m m' → extends P' m m'.
Proof. intros HP (n & H & F). exists n. split; [done|]. eapply Forall_impl; eauto. Qed.

Lemma sameButTrace_refl m : sameButTrace m m.
Proof. by repeat split. Qed.

Lemma sameButTrace_trans m1 m2 m3 :
  sameButTrace m1 m2 → sameButTrace m2 m3 → sameButTrace m1 m3.
Proof. unfold sameButTrace. intros (?&?&?&?) (?&?&?&?). repeat split; congruence. Qed.

Lemma emit_spec (e : Event) m :
  emit e m = (Return tt, {| fs := fs m; store := store m; isSyncing := isSyncing m;
                            result := result m; trace := trace m ++ [e] |}).
Proof. done. Qed.

Lemma scanEntry_spec dirPath type allowed file acc m :
  ∃ m', scanEntry dirPath type allowed file acc m =
          (Return (acc ++ option_list (describe (statSize (fs m)) dirPath type allowed file))%list, m') ∧
        sameButTrace m m' ∧
        extends (λ e, isStoreCall e = false) m m'.
Proof.
  unfold scanEntry, describe.
  destruct (includes allowed _); cycle 1.
  { exists m. simpl. rewrite app_nil_r.
    eauto using sameButTrace_refl, extends_refl. }
  unfold tryCatch, getFileStats, bind, fsStat, bind, emit, ofOutcome; simpl.
  destruct (statSize (fs m) (Path.join dirPath file)) as [size|e]; simpl.
  - eexists; split; [reflexivity|]. split; [done|].
    exists [FsStat (Path.join dirPath file)]. by repeat constructor.
  - eexists; split; [unfold consoleError, emit, ret; simpl; by rewrite app_nil_r|].
    split; [done|]. simpl.
    eexists [_; _]. rewrite <-app_assoc. split; [reflexivity|]. by repeat constructor.
Qed.

Lemma scanEntries_spec dirPath type allowed files :
  ∀ acc m,
  ∃ m', scanEntries dirPath type allowed files acc m =
          (Return (acc ++ omap (describe (statSize (fs m)) dirPath type allowed) files)%list, m') ∧
        sameButTrace m m' ∧
        extends (λ e, isStoreCall e = false) m m'.
Proof.
  induction files as [|file files IH]; intros acc m; simpl.
  - exists m. rewrite app_nil_r. eauto using sameButTrace_refl, extends_refl.
  - unfold bind.
    destruct (scanEntry_spec dirPath type allowed file acc m) as (m1 & -> & Hs1 & He1).
    destruct (IH (acc ++ option_list (describe (statSize (fs m)) dirPath type allowed file))%list m1)
      as (m2 & -> & Hs2 & He2).
    exists m2. split; [|eauto using sameButTrace_trans, extends_trans].
    f_equal. destruct Hs1 as (-> & _).
    rewrite <-app_assoc. do 2 f_equal.
    by destruct (describe _ _ _ _ file).
Qed.

Lemma scanDirectory_spec dirPath type allowed m :
  ∃ m', scanDirectory dirPath type allowed m =
          ((scanDirectoryResult (fs m) dirPath type allowed).1, m') ∧
        fs m' = (scanDirectoryResult (fs m) dirPath type allowed).2 ∧
        store m' = store m ∧ isSyncing m' = isSyncing m ∧ result m' = result m ∧
        extends (λ e, isStoreCall e = false) m m'.
Proof.
  unfold scanDirectory, scanDirectoryResult, tryCatchReturn, fsAccess, bind at 1.
  rewrite emit_spec; simpl.
  destruct (accessible (fs m) dirPath) eqn:Hacc.
  - unfold bind at 1, fsReaddir, bind at 1. rewrite emit_spec; simpl.
    destruct (entries (fs m) dirPath) as [files|e]; simpl.
    + match goal with |- ∃ _, scanEntries _ _ _ _ _ ?m0 = _ ∧ _ =>
        destruct (scanEntries_spec dirPath type allowed files [] m0)
          as (m' & -> & (Hf & Hs & Hi & Hr) & He)
      end.
      exists m'. simpl in *. repeat split; try done.
      eapply extends_trans; [|exact He].
      exists [FsAccess dirPath; FsReaddir dirPath]; simpl.
      rewrite <-app_assoc. by repeat constructor.
    + eexists; split; [reflexivity|]. repeat split; try done.
      exists [FsAccess dirPath; FsReaddir dirPath]; simpl.
      rewrite <-app_assoc. by repeat constructor.
  - unfold bind, consoleLog, fsMkdirRecursive, bind. rewrite !emit_spec; simpl.
    destruct (mkdirError (fs m) dirPath) as [e|]; simpl.
    + eexists; split; [reflexivity|]. repeat split; try done.
      eexists [_; _; _]; simpl. rewrite <-!app_assoc. by repeat constructor.
    + eexists; split; [reflexivity|]. repeat split; try done.
      eexists [_; _; _]; simpl. rewrite <-!app_assoc. by repeat constructor.
Qed.

End ScannerFacts.

(** * Paths of the two media directories *)

Section Paths.

Lemma append_cons c (s t : string) : String c s +:+ t = String c (s +:+ t).
Proof. done. Qed.

Lemma append_assoc (a b c : string) : (a +:+ b) +:+ c = a +:+ (b +:+ c).
Proof. induction a as [|x a IH]; [done|]. by rewrite !append_cons, IH. Qed.

Lemma prefix_append (a b c : string) :
  String.prefix (a +:+ b) (a +:+ c) = String.prefix b c.
Proof.
  induction a as [|x a IH]; [done|].
  rewrite !append_cons; simpl. by destruct (ascii_dec x x).
Qed.

Lemma IMAGES_DIR_eq cwd : IMAGES_DIR cwd = cwd +:+ "/server/media/images".
Proof. unfold IMAGES_DIR, MEDIA_DIR, Path.join. by rewrite append_assoc. Qed.

Lemma VIDEOS_DIR_eq cwd : VIDEOS_DIR cwd = cwd +:+ "/server/media/videos".
Proof. unfold VIDEOS_DIR, MEDIA_DIR, Path.join. by rewrite append_assoc. Qed.

Lemma IMAGES_DIR_ne_VIDEOS_DIR cwd : IMAGES_DIR cwd ≠ VIDEOS_DIR cwd.
Proof.
  rewrite IMAGES_DIR_eq, VIDEOS_DIR_eq. intros H.
  by apply (inj (String.app cwd)) in H.
Qed.

Lemma VIDEOS_DIR_not_above_IMAGES_DIR cwd :
  isAncestor (VIDEOS_DIR cwd) (IMAGES_DIR cwd) = false.
Proof.
  unfold isAncestor. rewrite IMAGES_DIR_eq, VIDEOS_DIR_eq, append_assoc.
  by rewrite prefix_append.
Qed.


Lemma IMAGES_DIR_not_above_VIDEOS_DIR cwd :
  isAncestor (IMAGES_DIR cwd) (VIDEOS_DIR cwd) = false.
Proof.
  unfold isAncestor. rewrite IMAGES_DIR_eq, VIDEOS_DIR_eq, append_assoc.
  by rewrite prefix_append.
Qed.

Lemma join_inj dir : Inj (=) (=) (Path.join dir).
Proof.
  intros a b H. unfold Path.join in H.
  apply (inj (String.app dir)) in H. by apply (inj (String.app "/")) in H.
Qed.

Lemma join_IMAGES_ne_join_VIDEOS cwd a b :
  Path.join (IMAGES_DIR cwd) a ≠ Path.join (VIDEOS_DIR cwd) b.
Proof.
  unfold Path.join. rewrite IMAGES_DIR_eq, VIDEOS_DIR_eq, !append_assoc.
  intros H. apply (inj (String.app cwd)) in H.
  unfold String.app in H; simpl in H. discriminate.
Qed.

End Paths.

Section ScanFacts.
Context {S : Type}.
Variable cwd : string.

Implicit Types (m : Machine S).

Lemma extends_emit (P : Event → Prop) e m m' :
  P e →
  extends P {| fs := fs m; store := store m; isSyncing := isSyncing m;
               result := result m; trace := trace m ++ [e] |} m' →
  extends P m m'.
Proof.
  intros HP (new & H & F). exists (e :: new). simpl in H.
  rewrite H, <-app_assoc. split; [done|]. by constructor.
Qed.

Lemma extends_emit_r (P : Event → Prop) e m m' :
  P e →
  extends P m m' →
  extends P m {| fs := fs m'; store := store m'; isSyncing := isSyncing m';
                 result := result m'; trace := trace m' ++ [e] |}.
Proof.
  intros HP (new & H & F). exists (new ++ [e])%list. simpl.
  rewrite H, <-app_assoc. split; [done|]. apply Forall_app. by repeat constructor.
Qed.

Lemma scanLocalMediaFiles_spec m :
  ∃ m', scanLocalMediaFiles cwd m = ((scanResult cwd (fs m)).1, m') ∧
        fs m' = (scanResult cwd (fs m)).2 ∧
        store m' = store m ∧ isSyncing m' = isSyncing m ∧ result m' = result m ∧
        extends (λ e, isStoreCall e = false) m m'.
Proof.
  unfold scanLocalMediaFiles, scanResult, bind at 1, consoleLog.
  rewrite emit_spec. unfold bind at 1, promiseAll.
  match goal with |- context [scanDirectory (IMAGES_DIR cwd) image IMAGE_EXTENSIONS ?m0] =>
    destruct (scanDirectory_spec (IMAGES_DIR cwd) image IMAGE_EXTENSIONS m0)
      as (m1 & -> & Hf1 & Hs1 & Hi1 & Hr1 & He1)
  end.
  cbn [fs store isSyncing result] in *.
  destruct (scanDirectory_spec (VIDEOS_DIR cwd) video VIDEO_EXTENSIONS m1)
    as (m2 & -> & Hf2 & Hs2 & Hi2 & Hr2 & He2).
  rewrite Hf1 in *.
  destruct (scanDirectoryResult (fs m) (IMAGES_DIR cwd) image IMAGE_EXTENSIONS)
    as [oi f1]; simpl in *.
  destruct (scanDirectoryResult f1 (VIDEOS_DIR cwd) video VIDEO_EXTENSIONS)
    as [ov f2]; simpl in *.
  assert (Hx : extends (λ e, isStoreCall e = false) m m2).
  { apply (extends_emit _ (ConsoleLog "Scanning local media files...")); [done|].
    by eapply extends_trans. }
  destruct oi as [images|e]; [destruct ov as [videos|e]|].
  - unfold bind, ret. rewrite emit_spec. eexists; split; [reflexivity|]; simpl.
    repeat split; try congruence. by apply extends_emit_r.
  - exists m2. repeat split; congruence.
  - exists m2. repeat split; congruence.
Qed.

Lemma scanResult_Return f files f' :
  scanResult cwd f = (Return files, f') →
  ∃ images videos f1,
    scanDirectoryResult f (IMAGES_DIR cwd) image IMAGE_EXTENSIONS = (Return images, f1) ∧
    scanDirectoryResult f1 (VIDEOS_DIR cwd) video VIDEO_EXTENSIONS = (Return videos, f') ∧
    files = (images ++ videos)%list.
Proof.
  unfold scanResult.
  destruct (scanDirectoryResult f _ _ _) as [[images|] f1] eqn:H1; cycle 1.
  { by destruct (scanDirectoryResult f1 _ _ _) as [[videos|] f2]. }
  destruct (scanDirectoryResult f1 _ _ _) as [[videos|] f2] eqn:H2; [|done].
  intros [= <- <-]. by exists images, videos, f1.
Qed.

Lemma describe_duration stat dirPath type allowed file info :
  describe stat dirPath type allowed file = Some info → duration info = None.
Proof.
  unfold describe. destruct (includes _ _); [|done].
  destruct (stat _); [|done]. by intros [= <-].
Qed.

Lemma describe_localFilePath stat dirPath type allowed file info :
  describe stat dirPath type allowed file = Some info →
  localFilePath info = Path.join dirPath file.
Proof.
  unfold describe. destruct (includes _ _); [|done].
  destruct (stat _); [|done]. by intros [= <-].
Qed.

Lemma scanDirectoryResult_duration f dirPath type allowed files f' :
  scanDirectoryResult f dirPath type allowed = (Return files, f') →
  Forall (λ info, duration info = None) files.
Proof.
  unfold scanDirectoryResult.
  destruct (accessible f dirPath).
  - destruct (entries f dirPath) as [names|]; [|done]. intros [= <- <-].
    apply Forall_forall. intros info (file & _ & Hd)%list_elem_of_omap.
    by eapply describe_duration.
  - destruct (mkdirError f dirPath); [done|]. by intros [= <- <-].
Qed.

Lemma scanResult_duration f files f' :
  scanResult cwd f = (Return files, f') →
  Forall (λ info, duration info = None) files.
Proof.
  intros (images & videos & f1 & H1 & H2 & ->)%scanResult_Return.
  apply Forall_app. eauto using scanDirectoryResult_duration.
Qed.

(** A missing directory that can be created: the access check fails, the
    console line is printed, the directory is created, nothing is returned. *)
Lemma scanDirectory_missing dirPath type allowed m :
  accessible (fs m) dirPath = false →
  mkdirError (fs m) dirPath = None →
  scanDirectory dirPath type allowed m =
    (Return [],
     {| fs := afterMkdir dirPath (fs m); store := store m;
        isSyncing := isSyncing m; result := result m;
        trace := trace m ++
          [FsAccess dirPath;
           ConsoleLog ("Directory " +:+ dirPath +:+ " does not exist, creating it...");
           FsMkdir dirPath true] |}).
Proof.
  intros Hacc Hmk.
  unfold scanDirectory, tryCatchReturn, fsAccess, bind at 1.
  rewrite emit_spec; simpl. rewrite Hacc.
  unfold bind, consoleLog, fsMkdirRecursive, bind. rewrite !emit_spec; simpl.
  rewrite Hmk. unfold setFs, ret; simpl. by rewrite <-!app_assoc.
Qed.

(** C9, as the code has it.  A configured directory that is missing when
    it is scanned - and whose creation succeeds - is created with the
    recursive option and gives no descriptor: [scanDirectory] returns the empty list, the only calls are
    the access check, the console line and the [mkdir], no error is printed
    and the result object of the run is untouched.  Afterwards the directory
    and its ancestors exist and the directory is empty.  This holds of any
    directory, hence of the images and of the videos directory; when both
    are missing, [scanLocalMediaFiles] creates both, returns no descriptor
    and prints no error. *)
Theorem scanDirectory_creates_missing_directory dirPath type allowed m :
  accessible (fs m) dirPath = false →
  mkdirError (fs m) dirPath = None →
  (∃ m',
    scanDirectory dirPath type allowed m = (Return [], m') ∧
    trace m' =
      (trace m ++
       [FsAccess dirPath;
        ConsoleLog ("Directory " +:+ dirPath +:+ " does not exist, creating it...");
        FsMkdir dirPath true])%list ∧
    List.filter isErrorReport (drop (List.length (trace m)) (trace m')) = [] ∧
    result m' = result m ∧ store m' = store m ∧
    fs m' = afterMkdir dirPath (fs m) ∧
    accessible (fs m') dirPath = true ∧
    entries (fs m') dirPath = Return [] ∧
    (∀ q, isAncestor q dirPath = true → accessible (fs m') q = true)) ∧
  (∀ m0 : Machine S,
     accessible (fs m0) (IMAGES_DIR cwd) = false →
     accessible (fs m0) (VIDEOS_DIR cwd) = false →
     mkdirError (fs m0) (IMAGES_DIR cwd) = None →
     mkdirError (fs m0) (VIDEOS_DIR cwd) = None →
     ∃ m',
       scanLocalMediaFiles cwd m0 = (Return [], m') ∧
       reports 0 m0 m' ∧
       result m' = result m0 ∧ store m' = store m0 ∧
       accessible (fs m') (IMAGES_DIR cwd) = true ∧
       accessible (fs m') (VIDEOS_DIR cwd) = true).
Proof.
  intros Hacc Hmk. split.
  - rewrite scanDirectory_missing by done.
    eexists; split; [reflexivity|]; simpl.
    split; [done|]. rewrite drop_app_length, Hacc; simpl.
    rewrite bool_decide_eq_true_2 by done.
    repeat split; try done.
    intros q ->. by rewrite orb_true_r.
  - intros m0 Hai Hav Hmi Hmv.
    unfold scanLocalMediaFiles, bind at 1, consoleLog. rewrite emit_spec.
    unfold bind at 1, promiseAll. rewrite scanDirectory_missing by done.
    rewrite scanDirectory_missing; cycle 1.
    { simpl. rewrite Hav, VIDEOS_DIR_not_above_IMAGES_DIR.
      rewrite bool_decide_eq_false_2; [done|].
      intros Heq. by apply (IMAGES_DIR_ne_VIDEOS_DIR cwd). }
    { done. }
    unfold bind, ret. rewrite emit_spec.
    eexists; split; [reflexivity|]; simpl.
    split; [|repeat split].
    + eexists [_; _; _; _; _; _; _; _]. rewrite <-!app_assoc. split; [reflexivity|done].
    + rewrite (bool_decide_eq_true_2 (IMAGES_DIR cwd = IMAGES_DIR cwd)) by done.
      simpl. by rewrite orb_true_r.
    + by rewrite (bool_decide_eq_true_2 (VIDEOS_DIR cwd = VIDEOS_DIR cwd)).
Qed.

(** Every descriptor that [scanLocalMediaFiles] returns has no duration. *)
Lemma scanLocalMediaFiles_duration m files m' :
  scanLocalMediaFiles cwd m = (Return files, m') →
  Forall (λ info, duration info = None) files.
Proof.
  destruct (scanLocalMediaFiles_spec m) as (m1 & Hscan & Hf & _).
  rewrite Hscan. intros [= Ho <-].
  destruct (scanResult cwd (fs m)) as [o f'] eqn:Hres. simpl in *. subst.
  by eapply scanResult_duration.
Qed.

End ScanFacts.

(** * The two passes, for any store *)

Section Passes.
Context {S : Type} `{!IStorage S}.

Implicit Types (m : Machine S).

Lemma callStore_spec {A} (e : Event) (op : S → Outcome A * S) m :
  callStore e op m =
  ((op (store m)).1,
   {| fs := fs m; store := (op (store m)).2; isSyncing := isSyncing m;
      result := result m; trace := trace m ++ [e] |}).
Proof.
  unfold callStore, bind at 1. rewrite emit_spec; simpl.
  destruct (op (store m)) as [[a|err] s']; done.
Qed.

(** One step of the addition pass never throws.  It leaves the file system
    alone, and adds one to exactly one of [added], [unchanged] and the
    number of [errors]. *)
Lemma additionStep_spec info m :
  ∃ m', additionStep info m = (Return tt, m') ∧
        fs m' = fs m ∧ isSyncing m' = isSyncing m ∧
        removed (result m') = removed (result m) ∧
        added (result m') + unchanged (result m') + List.length (errors (result m'))
          = added (result m) + unchanged (result m) + List.length (errors (result m)) + 1 ∧
        extends (additionCall [info]) m m'.
Proof.
  unfold additionStep, tryCatch, storageGetContentByLocalPath, bind at 1.
  rewrite callStore_spec.
  destruct (getContentByLocalPath (localFilePath info) (store m)) as [[[c|]|err] s1];
    simpl.
  - (* a record exists *)
    eexists; split; [reflexivity|]; simpl. repeat split; try lia.
    eexists [_]. by repeat constructor.
  - (* no record: create one *)
    unfold storageCreateContent, bind at 1. rewrite callStore_spec; simpl.
    destruct (createContent (convertToInsertContent info) s1) as [[c|err] s2]; simpl.
    + eexists; split; [reflexivity|]; simpl. repeat split; try lia.
      eexists [_; _; _]. rewrite <-!app_assoc. split; [reflexivity|].
      repeat constructor. exists info. split; [|done]. apply list_elem_of_here.
    + eexists; split; [reflexivity|]; simpl. rewrite length_app; simpl.
      repeat split; try lia.
      eexists [_; _; _]. rewrite <-!app_assoc. split; [reflexivity|].
      repeat constructor. exists info. split; [|done]. apply list_elem_of_here.
  - (* the lookup throws *)
    eexists; split; [reflexivity|]; simpl. rewrite length_app; simpl.
    repeat split; try lia.
    eexists [_; _]. rewrite <-!app_assoc. split; [reflexivity|]. by repeat constructor.
Qed.

Lemma additionCall_mono files files' e :
  files ⊆ files' → additionCall files e → additionCall files' e.
Proof.
  intros Hsub. destruct e; simpl; try done.
  intros (info & Hin & ->). exists info. split; [by apply Hsub|done].
Qed.

(** The addition pass visits every file and never throws. *)
Lemma additionPass_spec files :
  ∀ m,
  ∃ m', forOf files additionStep m = (Return tt, m') ∧
        fs m' = fs m ∧ isSyncing m' = isSyncing m ∧
        removed (result m') = removed (result m) ∧
        added (result m') + unchanged (result m') + List.length (errors (result m'))
          = added (result m) + unchanged (result m) + List.length (errors (result m))
            + List.length files ∧
        extends (additionCall files) m m'.
Proof.
  induction files as [|info files IH]; intros m; simpl.
  - exists m. repeat split; try lia. apply extends_refl.
  - unfold bind.
    destruct (additionStep_spec info m) as (m1 & -> & Hf1 & Hi1 & Hr1 & Hc1 & He1).
    destruct (IH m1) as (m2 & -> & Hf2 & Hi2 & Hr2 & Hc2 & He2).
    exists m2. repeat split; try congruence; try lia.
    eapply extends_trans.
    + eapply extends_mono; [|exact He1]. intros e. apply additionCall_mono.
      intros x ->%list_elem_of_singleton. apply list_elem_of_here.
    + eapply extends_mono; [|exact He2]. intros e. apply additionCall_mono.
      intros x Hx. by apply list_elem_of_further.
Qed.

Lemma removalCall_mono f scanned records records' e :
  records ⊆ records' →
  removalCall f scanned records e → removalCall f scanned records' e.
Proof.
  intros Hsub. destruct e; simpl; try done.
  intros (c & Hin & Hg & ->). exists c. split; [by apply Hsub|done].
Qed.

(** One step of the removal pass.  A record outside the scan whose path is
    accessible counts as unchanged; one whose path is not accessible is
    deleted by path and counts as removed, unless the deletion throws, which
    ends the step with the result object as it was. *)
Lemma removalStep_spec scanned c m :
  ∃ o m', removalStep scanned c m = (o, m') ∧
        fs m' = fs m ∧ isSyncing m' = isSyncing m ∧
        added (result m') = added (result m) ∧
        errors (result m') = errors (result m) ∧
        extends (removalCall (fs m) scanned [c]) m m' ∧
        match o with
        | Return _ =>
            removed (result m') =
              removed (result m) + (if gone (fs m) scanned c then 1 else 0) ∧
            unchanged (result m') =
              unchanged (result m) + (if stillAccessible (fs m) scanned c then 1 else 0)
        | Throw _ => gone (fs m) scanned c = true ∧ result m' = result m
        end.
Proof.
  unfold removalStep, gone, stillAccessible, outsideScan.
  destruct (truthy (c_localFilePath c)) eqn:Htruthy; cbn [negb andb]; cycle 1.
  { exists (Return tt), m. repeat split; try lia. apply extends_refl. }
  destruct (bool_decide (pathOf (c_localFilePath c) ∈ scanned)) eqn:Hin;
    cbn [negb andb].
  { exists (Return tt), m. repeat split; try lia. apply extends_refl. }
  unfold tryCatch, fsAccess, bind at 1 2. rewrite emit_spec; simpl.
  destruct (accessible (fs m) (pathOf (c_localFilePath c))) eqn:Hacc; simpl.
  - eexists _, _; split; [reflexivity|]; simpl. repeat split; try lia.
    eexists [_]. by repeat constructor.
  - unfold storageDeleteContentByLocalPath, bind at 1. rewrite callStore_spec; simpl.
    assert (Hcall : removalCall (fs m) scanned [c]
                      (DeleteContentByLocalPath (pathOf (c_localFilePath c)))).
    { exists c. split; [apply list_elem_of_here|]. split; [|done].
      unfold gone, outsideScan. by rewrite Htruthy, Hin, Hacc. }
    destruct (deleteContentByLocalPath (pathOf (c_localFilePath c)) (store m))
      as [[[]|err] s1]; simpl.
    + eexists _, _; split; [reflexivity|]; simpl. repeat split; try lia.
      eexists [_; _; _]. rewrite <-!app_assoc. split; [reflexivity|].
      by repeat constructor.
    + eexists _, _; split; [reflexivity|]; simpl. repeat split; try lia.
      eexists [_; _]. rewrite <-!app_assoc. split; [reflexivity|].
      by repeat constructor.
Qed.

(** The removal pass: its store calls are deletions of records that are
    outside the scan and not accessible; when no deletion throws, [removed]
    grows by the number of those records and [unchanged] by the number of
    records outside the scan that are still accessible. *)
Lemma removalPass_spec scanned records :
  ∀ m,
  ∃ o m', forOf records (removalStep scanned) m = (o, m') ∧
        fs m' = fs m ∧ isSyncing m' = isSyncing m ∧
        added (result m') = added (result m) ∧
        errors (result m') = errors (result m) ∧
        extends (removalCall (fs m) scanned records) m m' ∧
        match o with
        | Return _ =>
            removed (result m') =
              removed (result m) + List.length (List.filter (gone (fs m) scanned) records) ∧
            unchanged (result m') =
              unchanged (result m)
              + List.length (List.filter (stillAccessible (fs m) scanned) records)
        | Throw _ => True
        end.
Proof.
  induction records as [|c records IH]; intros m; simpl.
  - exists (Return tt), m. repeat split; try lia. apply extends_refl.
  - unfold bind.
    destruct (removalStep_spec scanned c m)
      as (o1 & m1 & -> & Hf1 & Hi1 & Ha1 & Herr1 & He1 & Hc1).
    assert (He1' : extends (removalCall (fs m) scanned (c :: records)) m m1).
    { eapply extends_mono; [|exact He1]. intros e. apply removalCall_mono.
      intros x ->%list_elem_of_singleton. apply list_elem_of_here. }
    destruct o1 as [[]|err]; cycle 1.
    { exists (Throw err), m1. repeat split; done. }
    destruct (IH m1) as (o2 & m2 & -> & Hf2 & Hi2 & Ha2 & Herr2 & He2 & Hc2).
    rewrite Hf1 in *.
    exists o2, m2. repeat split; try congruence.
    + eapply extends_trans; [exact He1'|].
      eapply extends_mono; [|exact He2]. intros e. apply removalCall_mono.
      intros x Hx. by apply list_elem_of_further.
    + destruct o2 as [[]|]; [|done]. destruct Hc1 as [Hrm1 Hun1], Hc2 as [Hrm2 Hun2].
      destruct (gone (fs m) scanned c), (stillAccessible (fs m) scanned c);
        simpl; split; lia.
Qed.







End Passes.

(** * A sync run, for any store *)

Section Run.
Context {S : Type} `{!IStorage S}.
Variable cwd : string.

Implicit Types (m : Machine S).

Lemma filter_outside (P : Content → bool) (all : list Content) :
  (∀ c, P c = true → truthy (c_localFilePath c) = true) →
  List.filter P (List.filter (λ c, truthy (c_localFilePath c)) all) = List.filter P all.
Proof.
  intros HP. induction all as [|c all IH]; [done|]; simpl.
  destruct (truthy (c_localFilePath c)) eqn:Ht; simpl.
  - by rewrite IH.
  - destruct (P c) eqn:HPc; [|done]. apply HP in HPc. congruence.
Qed.

Lemma gone_truthy f scanned c :
  gone f scanned c = true → truthy (c_localFilePath c) = true.
Proof. unfold gone, outsideScan. by intros [[? _]%andb_prop _]%andb_prop. Qed.

Lemma stillAccessible_truthy f scanned c :
  stillAccessible f scanned c = true → truthy (c_localFilePath c) = true.
Proof. unfold stillAccessible, outsideScan. by intros [[? _]%andb_prop _]%andb_prop. Qed.

(** The body of the outer [try], by cases on what the scan and the listing
    of the store give. *)
Lemma syncBody_cases m :
  match scanResult cwd (fs m) with
  | (Throw err, f1) =>
      ∃ mb, syncBody cwd m = (Throw err, mb) ∧
            fs mb = f1 ∧ store mb = store m ∧ result mb = result m ∧
            isSyncing mb = isSyncing m ∧
            extends (λ e, isStoreCall e = false) m mb
  | (Return files, f1) =>
      match getAllContent (store m) with
      | (Throw err, s2) =>
          ∃ mb, syncBody cwd m = (Throw err, mb) ∧
                fs mb = f1 ∧ store mb = s2 ∧ result mb = result m ∧
                isSyncing mb = isSyncing m ∧
                extends (λ e, isStoreMutation e = false) m mb
      | (Return all, s2) =>
          ∃ o mb, syncBody cwd m = (o, mb) ∧
                fs mb = f1 ∧ isSyncing mb = isSyncing m ∧
                extends (syncCall f1 files all) m mb ∧
                match o with
                | Return _ =>
                    removed (result mb) =
                      removed (result m)
                      + List.length (List.filter (gone f1 (scannedPaths files)) all) ∧
                    added (result mb) + unchanged (result mb)
                      + List.length (errors (result mb)) =
                      added (result m) + unchanged (result m)
                      + List.length (errors (result m))
                      + List.length files
                      + List.length (List.filter (stillAccessible f1 (scannedPaths files)) all)
                | Throw _ => True
                end
      end
  end.
Proof.
  destruct (scanLocalMediaFiles_spec cwd m) as (m1 & Hscan & Hf1 & Hs1 & Hi1 & Hr1 & He1).
  destruct (scanResult cwd (fs m)) as [[files|err] f1]; simpl in *; cycle 1.
  { exists m1. unfold syncBody, bind at 1. rewrite Hscan. repeat split; done. }
  destruct (getAllContent (store m)) as [[all|err] s2] eqn:Hall; simpl; cycle 1.
  { unfold syncBody, bind at 1. rewrite Hscan.
    unfold storageGetAllContent, bind at 1. rewrite callStore_spec, Hs1, Hall.
    eexists; split; [reflexivity|]; simpl. repeat split; try done.
    apply extends_emit_r; [done|].
    eapply extends_mono; [|exact He1]. by intros []. }
  unfold syncBody, bind at 1. rewrite Hscan.
  unfold storageGetAllContent, bind at 1. rewrite callStore_spec, Hs1, Hall.
  cbn [fst snd]. unfold bind at 1.
  match goal with |- ∃ _ _, match forOf files additionStep ?m0 with _ => _ end = _ ∧ _ =>
    destruct (additionPass_spec files m0) as (m2 & -> & Hf2 & Hi2 & Hr2 & Hc2 & He2);
    assert (He0 : extends (syncCall f1 files all) m m0)
  end.
  { apply extends_emit_r; [done|].
    eapply extends_mono; [|exact He1]. by intros []. }
  cbn [fs store isSyncing result] in *.
  unfold bind at 1. fold (scannedPaths files).
  destruct (removalPass_spec (scannedPaths files)
              (List.filter (λ c, truthy (c_localFilePath c)) all) m2)
    as (o3 & m3 & -> & Hf3 & Hi3 & Ha3 & Herr3 & He3 & Hc3).
  assert (He23 : extends (syncCall f1 files all) m m3).
  { eapply extends_trans; [exact He0|]. eapply extends_trans.
    - eapply extends_mono; [|exact He2]. by intros [].
    - eapply extends_mono; [|exact He3]. rewrite Hf2, Hf1.
      intros []; simpl; try done.
      intros (c & Hin & Hg & ->). exists c. split; [|done].
      apply list_elem_of_In, List.filter_In in Hin as [Hin _].
      by apply list_elem_of_In. }
  destruct o3 as [[]|err]; cycle 1.
  { exists (Throw err), m3. repeat split; congruence. }
  unfold bind, getResult, consoleLog. rewrite emit_spec.
  eexists _, _; split; [reflexivity|]; simpl.
  split; [congruence|]. split; [congruence|].
  split; [by apply extends_emit_r|].
  destruct Hc3 as [Hrm3 Hun3].
  rewrite Hf2, Hf1 in Hrm3, Hun3.
  rewrite filter_outside in Hrm3 by apply gone_truthy.
  rewrite filter_outside in Hun3 by apply stillAccessible_truthy.
  rewrite Hr1 in *. rewrite Herr3. split; lia.
Qed.

Lemma scanResult_of_scan m files m1 :
  scanLocalMediaFiles cwd m = (Return files, m1) →
  scanResult cwd (fs m) = (Return files, fs m1) ∧
  store m1 = store m ∧ result m1 = result m ∧ isSyncing m1 = isSyncing m.
Proof.
  intros Hscan.
  destruct (scanLocalMediaFiles_spec cwd m) as (m1' & Hscan' & Hf & Hs & Hi & Hr & _).
  rewrite Hscan in Hscan'.
  assert (m1' = m1) as -> by congruence.
  destruct (scanResult cwd (fs m)) as [so f1]; simpl in *.
  repeat split; congruence.
Qed.

(** A run is its body between the opening console line and, when the body
    throws, the report of the outer handler. *)
Lemma syncLocalMediaFiles_via_body m :
  ∃ o mb m',
    syncBody cwd (startRun m) = (o, mb) ∧
    syncLocalMediaFiles cwd m = (Return (result m'), m') ∧
    m' = match o with Return _ => mb | Throw err => syncFailed err mb end ∧
    (∀ P : Event → Prop,
       (∀ e, isStoreMutation e = false → P e) →
       extends P (startRun m) mb → extends P m m').
Proof.
  rewrite syncLocalMediaFiles_unfold.
  destruct (syncBody cwd (startRun m)) as [[[]|err] mb]; eexists _, mb, _;
    (split; [reflexivity|]); (split; [reflexivity|]); (split; [reflexivity|]);
    intros P HP He.
  - by apply (extends_emit _ (ConsoleLog "Starting local media sync...")); [apply HP|].
  - apply (extends_emit _ (ConsoleLog "Starting local media sync...")); [by apply HP|].
    apply extends_emit_r; [by apply HP|]. exact He.
Qed.

Lemma truthy_Value v : truthy v = true → v = Value (pathOf v).
Proof. by destruct v. Qed.

Lemma gone_spec f scanned c :
  gone f scanned c = true →
  c_localFilePath c = Value (pathOf (c_localFilePath c)) ∧
  (pathOf (c_localFilePath c) ∉ scanned) ∧
  accessible f (pathOf (c_localFilePath c)) = false.
Proof.
  unfold gone, outsideScan.
  intros [[Ht Hout%negb_true_iff]%andb_prop Hacc%negb_true_iff]%andb_prop.
  split; [by apply truthy_Value|]. split; [|done].
  by apply bool_decide_eq_false in Hout.
Qed.






(** C10. The local-file path never gives a duration: every descriptor
    returned by [scanLocalMediaFiles] has its [duration] unset, and every
    insert request that a sync run hands to [createContent] has [duration]
    undefined and [googleDriveId] and [googleDriveUrl] null. *)
Theorem local_files_have_no_duration m :
  match scanLocalMediaFiles cwd m with
  | (Return files, _) => Forall (λ info, duration info = None) files
  | (Throw _, _) => True
  end ∧
  ∃ r m' new,
    syncLocalMediaFiles cwd m = (Return r, m') ∧
    trace m' = (trace m ++ new)%list ∧
    Forall (λ e, match e with
                 | CreateContent c =>
                     ic_duration c = Undefined ∧
                     ic_googleDriveId c = Null ∧
                     ic_googleDriveUrl c = Null
                 | _ => True
                 end) new.
Proof.
  split.
  { destruct (scanLocalMediaFiles cwd m) as [[files|err] m1] eqn:Hscan; [|done].
    by eapply scanLocalMediaFiles_duration. }
  destruct (syncLocalMediaFiles_via_body m) as (o & mb & m' & Hbody & Hrun & Hm' & Hext).
  pose proof (syncBody_cases (startRun m)) as Hcases.
  match goal with |- ∃ _ _ new, _ ∧ _ ∧ Forall ?P new =>
    assert (He : extends P m m')
  end.
  { apply Hext; [by intros []|].
    destruct (scanResult cwd (fs (startRun m))) as [[files|err] f1] eqn:Hres.
    - destruct (getAllContent (store (startRun m))) as [[all|err] s2].
      + destruct Hcases as (o' & mb' & Hbody' & _ & _ & He & _).
        rewrite Hbody in Hbody'. injection Hbody' as <- <-.
        eapply extends_mono; [|exact He].
        intros [] He'; try done. destruct He' as (info & Hin & ->); simpl.
        apply scanResult_duration in Hres.
        apply (proj1 (Forall_forall _ _) Hres) in Hin. by rewrite Hin.
      + destruct Hcases as (mb' & Hbody' & _ & _ & _ & _ & He).
        rewrite Hbody in Hbody'. assert (mb' = mb) as -> by congruence.
        eapply extends_mono; [|exact He]. by intros [].
    - destruct Hcases as (mb' & Hbody' & _ & _ & _ & _ & He).
      rewrite Hbody in Hbody'. assert (mb' = mb) as -> by congruence.
      eapply extends_mono; [|exact He]. by intros []. }
  destruct He as (new & Htrace & Hnew).
  by exists (result m'), m', new.
Qed.

End Run.

(** * The two passes over the reference store *)

Section MemPasses.

Implicit Types (m : Machine MemStorage).

Lemma find_hasPath_Some p (rs : list Content) c :
  c ∈ rs → c_localFilePath c = Value p →
  ∃ c', List.find (hasPath p) rs = Some c'.
Proof.
  intros Hin Hp. destruct (List.find (hasPath p) rs) as [c'|] eqn:Hfind; [eauto|].
  apply list_elem_of_In in Hin.
  pose proof (List.find_none _ _ Hfind _ Hin) as Hno.
  unfold hasPath in Hno. by rewrite bool_decide_eq_true_2 in Hno.
Qed.


(** One step of the addition pass over the reference store. *)
Lemma additionStep_mem info m :
  additionStep info m =
  (Return tt,
   match List.find (hasPath (localFilePath info)) (records (store m)) with
   | Some _ =>
       {| fs := fs m; store := store m; isSyncing := isSyncing m;
          result := incUnchanged (result m);
          trace := trace m ++ [GetContentByLocalPath (localFilePath info)] |}
   | None =>
       {| fs := fs m;
          store :=
            {| records := (records (store m) ++
                 [contentOfInsert (nextId (store m)) (convertToInsertContent info)])%list;
               nextId := nextId (store m) + 1 |};
          isSyncing := isSyncing m;
          result := incAdded (result m);
          trace := trace m ++ [GetContentByLocalPath (localFilePath info);
                               CreateContent (convertToInsertContent info);
                               ConsoleLog ("Added: " +:+ title info)] |}
   end).
Proof.
  unfold additionStep, tryCatch, storageGetContentByLocalPath, bind at 1.
  rewrite callStore_spec; simpl.
  destruct (List.find _ _); simpl; [done|].
  unfold storageCreateContent, callStore, bind, emit, setStore, ofOutcome, ret; simpl.
  by rewrite <-!app_assoc.
Qed.

(** The addition pass when every file already has a record: nothing is
    created, every file counts as unchanged. *)
Lemma additionPass_present files :
  ∀ m,
  (∀ info, info ∈ files →
     ∃ c, c ∈ records (store m) ∧ c_localFilePath c = Value (localFilePath info)) →
  ∃ m', forOf files additionStep m = (Return tt, m') ∧
        fs m' = fs m ∧ store m' = store m ∧ isSyncing m' = isSyncing m ∧
        added (result m') = added (result m) ∧
        removed (result m') = removed (result m) ∧
        unchanged (result m') = unchanged (result m) + List.length files ∧
        errors (result m') = errors (result m) ∧
        extends (λ e, isStoreMutation e = false ∧ isErrorReport e = false) m m'.
Proof.
  induction files as [|info files IH]; intros m Hpresent; simpl.
  - exists m. repeat split; try lia. apply extends_refl.
  - unfold bind. rewrite additionStep_mem.
    destruct (Hpresent info) as (c & Hin & Hp); [apply list_elem_of_here|].
    destruct (find_hasPath_Some _ _ _ Hin Hp) as (c' & ->).
    match goal with |- ∃ _, forOf _ _ ?m1 = _ ∧ _ =>
      destruct (IH m1) as (m2 & -> & Hf & Hs & Hi & Ha & Hr & Hu & He & Hx)
    end.
    { intros info' Hin'. apply Hpresent. by apply list_elem_of_further. }
    exists m2. simpl in *. repeat split; try congruence; try lia.
    by apply (extends_emit _ (GetContentByLocalPath (localFilePath info))).
Qed.

(** The addition pass in general: it never fails on the reference store;
    it appends the created records, whose paths are scanned paths; after it
    every scanned path has a record.  When the scanned paths are distinct
    and none has a record, every file is added. *)
Lemma additionPass_mem files :
  ∀ m,
  ∃ m' created,
    forOf files additionStep m = (Return tt, m') ∧
    fs m' = fs m ∧ isSyncing m' = isSyncing m ∧
    removed (result m') = removed (result m) ∧
    errors (result m') = errors (result m) ∧
    records (store m') = (records (store m) ++ created)%list ∧
    Forall (λ c, ∃ info, info ∈ files ∧
                         c_localFilePath c = Value (localFilePath info)) created ∧
    (∀ info, info ∈ files →
       ∃ c, c ∈ records (store m') ∧ c_localFilePath c = Value (localFilePath info)) ∧
    added (result m') + unchanged (result m') =
      added (result m) + unchanged (result m) + List.length files ∧
    (NoDup (List.map localFilePath files) →
     (∀ info c, info ∈ files → c ∈ records (store m) →
        c_localFilePath c ≠ Value (localFilePath info)) →
     added (result m') = added (result m) + List.length files) ∧
    extends (λ e, isErrorReport e = false) m m'.
Proof.
  induction files as [|info files IH]; intros m; simpl.
  - exists m, []. rewrite app_nil_r. repeat split; try done; try lia.
    + by intros info ?%elem_of_nil.
    + apply extends_refl.
  - unfold bind. rewrite additionStep_mem.
    match goal with |- ∃ _ _, forOf _ _ ?m1 = _ ∧ _ =>
      destruct (IH m1) as (m2 & created & -> & Hf & Hi & Hr & He & Hrec & Hcr & Hall & Hsum & Hfresh & Hx);
      assert (Hx1 : extends (λ e, isErrorReport e = false) m m1)
    end.
    { destruct (List.find _ _).
      - exists [GetContentByLocalPath (localFilePath info)]. by repeat constructor.
      - eexists [_; _; _]. split; [reflexivity|]. by repeat constructor. }
    assert (Hx2 := extends_trans _ _ _ _ Hx1 Hx). clear Hx Hx1.
    assert (Hlater : ∀ P : LocalFileInfo → Prop,
              (∃ i, i ∈ files ∧ P i) → ∃ i, i ∈ info :: files ∧ P i).
    { intros P (i & Hi' & HP). exists i. split; [by apply list_elem_of_further|done]. }
    destruct (List.find (hasPath (localFilePath info)) (records (store m)))
      as [c0|] eqn:Hfind; simpl in *.
    + (* the path has a record *)
      exists m2, created. repeat split; try done; try lia.
      * eapply Forall_impl; [exact Hcr|]. intros c. apply Hlater.
      * intros info' [->|Hin']%elem_of_cons; [|by apply Hall].
        apply List.find_some in Hfind as [Hin Hp].
        exists c0. split.
        -- rewrite Hrec. apply elem_of_app. left. by apply list_elem_of_In.
        -- by apply bool_decide_eq_true in Hp.
      * intros _ Hno. exfalso.
        apply List.find_some in Hfind as [Hin Hp].
        apply (Hno info c0); [apply list_elem_of_here|by apply list_elem_of_In|].
        by apply bool_decide_eq_true in Hp.
    + (* no record: one is created *)
      eexists m2, (_ :: created). split; [reflexivity|].
      repeat split; try done; try lia.
      * by rewrite Hrec, <-app_assoc.
      * constructor.
        -- exists info. split; [apply list_elem_of_here|done].
        -- eapply Forall_impl; [exact Hcr|]. intros c. apply Hlater.
      * intros info' [->|Hin']%elem_of_cons; [|by apply Hall].
        exists (contentOfInsert (nextId (store m)) (convertToInsertContent info)).
        split; [|done].
        rewrite Hrec. apply elem_of_app. left.
        apply elem_of_app. right. apply list_elem_of_here.
      * intros Hnodup Hno. apply NoDup_cons in Hnodup as [Hnotin Hnodup].
        rewrite Hfresh; [lia|done|].
        intros info' c Hin' [Hc|Hc]%elem_of_app.
        -- apply Hno; [by apply list_elem_of_further|done].
        -- apply list_elem_of_singleton in Hc as ->; simpl.
           intros [= Heq]. apply Hnotin. rewrite Heq.
           by apply list_elem_of_In, List.in_map, list_elem_of_In.
Qed.

(** One step of the removal pass over the reference store. *)
Lemma removalStep_mem scanned c m :
  removalStep scanned c m =
  (Return tt,
   if gone (fs m) scanned c then
     {| fs := fs m;
        store :=
          {| records :=
               List.filter (λ c', negb (hasPath (pathOf (c_localFilePath c)) c'))
                 (records (store m));
             nextId := nextId (store m) |};
        isSyncing := isSyncing m;
        result := incRemoved (result m);
        trace := trace m ++ [FsAccess (pathOf (c_localFilePath c));
                             DeleteContentByLocalPath (pathOf (c_localFilePath c));
                             ConsoleLog ("Removed (file deleted): " +:+ c_title c)] |}
   else if stillAccessible (fs m) scanned c then
     {| fs := fs m; store := store m; isSyncing := isSyncing m;
        result := incUnchanged (result m);
        trace := trace m ++ [FsAccess (pathOf (c_localFilePath c))] |}
   else m).
Proof.
  unfold removalStep, gone, stillAccessible, outsideScan.
  destruct (truthy (c_localFilePath c)); cbn [negb andb]; [|done].
  destruct (bool_decide (pathOf (c_localFilePath c) ∈ scanned)); cbn [negb andb]; [done|].
  unfold tryCatch, fsAccess, bind at 1 2. rewrite emit_spec; simpl.
  destruct (accessible (fs m) (pathOf (c_localFilePath c))); simpl; [done|].
  unfold storageDeleteContentByLocalPath, callStore, bind, emit, setStore,
    ofOutcome, ret, consoleLog, emit; simpl.
  by rewrite <-!app_assoc.
Qed.

(** The removal pass never fails on the reference store.  It keeps exactly
    the records whose path is not the path of a record that is outside the
    scan and not accessible. *)
Lemma removalPass_mem scanned (listed : list Content) :
  ∀ m,
  ∃ m', forOf listed (removalStep scanned) m = (Return tt, m') ∧
        fs m' = fs m ∧
        (∀ c, c ∈ records (store m') ↔
              c ∈ records (store m) ∧
              ¬ ∃ b, b ∈ listed ∧ gone (fs m) scanned b = true ∧
                     c_localFilePath c = Value (pathOf (c_localFilePath b))) ∧
        ((∀ b, b ∈ listed → gone (fs m) scanned b = false) → store m' = store m) ∧
        extends (λ e, isErrorReport e = false) m m'.
Proof.
  induction listed as [|b listed IH]; intros m; simpl.
  - exists m. split; [done|]. split; [done|]. split; [|split; [done|apply extends_refl]].
    intros c. split; [|by intros [? _]].
    intros Hc. split; [done|]. by intros (b & ?%elem_of_nil & _).
  - unfold bind. rewrite removalStep_mem.
    match goal with |- ∃ _, forOf _ _ ?m1 = _ ∧ _ =>
      destruct (IH m1) as (m2 & -> & Hf & Hrec & Hsame & Hx);
      assert (Hf1 : fs m1 = fs m) by (by repeat case_match);
      assert (Hx1 : extends (λ e, isErrorReport e = false) m m1)
    end.
    { repeat case_match.
      - eexists [_; _; _]. split; [reflexivity|]. by repeat constructor.
      - eexists [_]. split; [reflexivity|]. by repeat constructor.
      - apply extends_refl. }
    exists m2. rewrite Hf1 in *. split; [done|]. split; [done|].
    split; [|split; [|by eapply extends_trans]].
    + intros c. rewrite Hrec. clear Hrec Hsame Hx Hx1.
      destruct (gone (fs m) scanned b) eqn:Hgone; simpl.
      * rewrite list_elem_of_In, List.filter_In, <-list_elem_of_In.
        unfold hasPath. rewrite negb_true_iff, bool_decide_eq_false.
        split.
        -- intros [[Hin Hne] Hno]. split; [done|].
           intros (b' & [->|Hb']%elem_of_cons & Hg & Hp); [done|].
           apply Hno. eauto.
        -- intros [Hin Hno]. split; [split; [done|]|].
           ++ intros Hp. apply Hno. exists b. split; [apply list_elem_of_here|done].
           ++ intros (b' & Hb' & Hg & Hp). apply Hno. exists b'.
              split; [by apply list_elem_of_further|done].
      * assert (Hrecs : ∀ m0 : Machine MemStorage,
                  records (store (if stillAccessible (fs m) scanned b
                                  then {| fs := fs m; store := store m;
                                          isSyncing := isSyncing m;
                                          result := incUnchanged (result m);
                                          trace := trace m ++ [FsAccess (pathOf (c_localFilePath b))] |}
                                  else m)) = records (store m))
          by (intros _; by case_match).
        rewrite (Hrecs m). split.
        -- intros [Hin Hno]. split; [done|].
           intros (b' & [->|Hb']%elem_of_cons & Hg & Hp); [congruence|].
           apply Hno. eauto.
        -- intros [Hin Hno]. split; [done|].
           intros (b' & Hb' & Hg & Hp). apply Hno. exists b'.
           split; [by apply list_elem_of_further|done].
    + intros Hnone. rewrite Hsame.
      * rewrite (Hnone b) by apply list_elem_of_here.
        by destruct (stillAccessible (fs m) scanned b).
      * intros b' Hb'. apply Hnone. by apply list_elem_of_further.
Qed.

End MemPasses.

(** * Scanning again sees the same files *)

Section ScanAgain.
Variable cwd : string.

Lemma scanDirectoryResult_fs f dirPath type allowed o f' :
  scanDirectoryResult f dirPath type allowed = (o, f') →
  f' = f ∨ (f' = afterMkdir dirPath f ∧ accessible f dirPath = false ∧ o = Return []).
Proof.
  unfold scanDirectoryResult.
  destruct (accessible f dirPath).
  - destruct (entries f dirPath); intros [= <- <-]; by left.
  - destruct (mkdirError f dirPath); intros [= <- <-]; [by left|by right].
Qed.

Lemma scanDirectoryResult_accessible f dirPath type allowed files f' :
  scanDirectoryResult f dirPath type allowed = (Return files, f') →
  accessible f' dirPath = true.
Proof.
  unfold scanDirectoryResult.
  destruct (accessible f dirPath) eqn:Hacc.
  - destruct (entries f dirPath); intros [= <- <-]; done.
  - destruct (mkdirError f dirPath); intros [= <- <-]; simpl.
    by rewrite bool_decide_eq_true_2.
Qed.

Lemma scanDirectoryResult_again f dirPath type allowed o f' :
  scanDirectoryResult f dirPath type allowed = (o, f') →
  scanDirectoryResult f' dirPath type allowed = (o, f').
Proof.
  intros Hscan.
  destruct (scanDirectoryResult_fs _ _ _ _ _ _ Hscan) as [->|(-> & Hacc & ->)]; [done|].
  unfold scanDirectoryResult; simpl.
  by rewrite bool_decide_eq_true_2, Hacc.
Qed.

(** Creating another directory, not below [dirPath], does not change what
    the scan of [dirPath] gives. *)
Lemma scanDirectoryResult_beside f dirPath other type allowed o :
  dirPath ≠ other →
  isAncestor dirPath other = false →
  scanDirectoryResult f dirPath type allowed = (o, f) →
  scanDirectoryResult (afterMkdir other f) dirPath type allowed =
    (o, afterMkdir other f).
Proof.
  intros Hne Hanc. unfold scanDirectoryResult; simpl.
  rewrite Hanc, bool_decide_eq_false_2 by done; simpl.
  destruct (accessible f dirPath) eqn:Hacc.
  - destruct (entries f dirPath); by intros [= <-].
  - destruct (mkdirError f dirPath); [by intros [= <-]|].
    intros [= _ Hf]. apply (f_equal (λ g, accessible g dirPath)) in Hf.
    simpl in Hf. rewrite bool_decide_eq_true_2 in Hf by done. simpl in Hf. congruence.
Qed.

Lemma scanResult_again f o f' :
  scanResult cwd f = (o, f') → scanResult cwd f' = (o, f').
Proof.
  unfold scanResult.
  destruct (scanDirectoryResult f (IMAGES_DIR cwd) image IMAGE_EXTENSIONS)
    as [oi f1] eqn:Himg.
  destruct (scanDirectoryResult f1 (VIDEOS_DIR cwd) video VIDEO_EXTENSIONS)
    as [ov f2] eqn:Hvid.
  intros [= <- <-].
  pose proof (scanDirectoryResult_again _ _ _ _ _ _ Himg) as Himg1.
  pose proof (scanDirectoryResult_again _ _ _ _ _ _ Hvid) as Hvid2.
  assert (Himg2 : scanDirectoryResult f2 (IMAGES_DIR cwd) image IMAGE_EXTENSIONS
                  = (oi, f2)).
  { destruct (scanDirectoryResult_fs _ _ _ _ _ _ Hvid) as [->|(-> & _ & _)]; [done|].
    apply scanDirectoryResult_beside;
      [apply IMAGES_DIR_ne_VIDEOS_DIR|apply IMAGES_DIR_not_above_VIDEOS_DIR|done]. }
  by rewrite Himg2, Hvid2.
Qed.

End ScanAgain.

(** * A sync run over the reference store *)

Section MemRun.
Variable cwd : string.

Implicit Types (m : Machine MemStorage).

Lemma filter_none {A} (P : A → bool) (l : list A) :
  (∀ x, x ∈ l → P x = false) → List.filter P l = [].
Proof.
  induction l as [|x l IH]; [done|]; intros Hno; simpl.
  rewrite (Hno x) by apply list_elem_of_here.
  apply IH. intros y Hy. apply Hno. by apply list_elem_of_further.
Qed.

(** The body of a run over the reference store, once the scan gave
    [files]: it completes and reports no error; afterwards every scanned
    path has a record and no record is outside the scan and inaccessible. *)
Lemma syncBody_mem m files f1 :
  scanResult cwd (fs m) = (Return files, f1) →
  ∃ mb,
    syncBody cwd m = (Return tt, mb) ∧
    fs mb = f1 ∧ isSyncing mb = isSyncing m ∧
    errors (result mb) = errors (result m) ∧
    removed (result mb) =
      removed (result m)
      + List.length (List.filter (gone f1 (scannedPaths files)) (records (store m))) ∧
    added (result mb) + unchanged (result mb) =
      added (result m) + unchanged (result m) + List.length files
      + List.length (List.filter (stillAccessible f1 (scannedPaths files)) (records (store m))) ∧
    (∀ info, info ∈ files →
       ∃ c, c ∈ records (store mb) ∧ c_localFilePath c = Value (localFilePath info)) ∧
    (∀ c, c ∈ records (store mb) → gone f1 (scannedPaths files) c = false) ∧
    (NoDup (List.map localFilePath files) →
     (∀ info c, info ∈ files → c ∈ records (store m) →
        c_localFilePath c ≠ Value (localFilePath info)) →
     added (result mb) = added (result m) + List.length files) ∧
    ((∀ info, info ∈ files →
        ∃ c, c ∈ records (store m) ∧ c_localFilePath c = Value (localFilePath info)) →
     (∀ c, c ∈ records (store m) → gone f1 (scannedPaths files) c = false) →
     added (result mb) = added (result m) ∧ store mb = store m) ∧
    extends (λ e, isErrorReport e = false) (scanLocalMediaFiles cwd m).2 mb.
Proof.
  intros Hres.
  destruct (scanLocalMediaFiles_spec cwd m) as (m1 & Hscan & Hf1 & Hs1 & Hi1 & Hr1 & _).
  rewrite Hres in Hscan, Hf1; simpl in Hscan, Hf1.
  unfold syncBody, bind at 1. rewrite Hscan.
  unfold storageGetAllContent, bind at 1. rewrite callStore_spec.
  cbn [getAllContent MemStorage_IStorage fst snd]. unfold bind at 1.
  fold (scannedPaths files).
  set (listed := List.filter (λ c, truthy (c_localFilePath c)) (records (store m1))).
  match goal with |- ∃ _, match forOf files additionStep ?x with _ => _ end = _ ∧ _ =>
    set (m0 := x)
  end.
  destruct (additionPass_mem files m0)
    as (m2 & created & Hadd & Hf2 & Hi2 & Hr2 & He2 & Hrec2 & Hcr & Hall2 & Hsum2 & Hfresh & Hx2).
  pose proof (additionPass_present files m0) as Hpresent.
  rewrite Hadd. unfold bind at 1.
  destruct (removalPass_spec (scannedPaths files) listed m2)
    as (o3 & m3 & Hrem & Hf3 & Hi3 & Ha3 & He3 & _ & Hc3).
  destruct (removalPass_mem (scannedPaths files) listed m2)
    as (m3' & Hrem' & _ & Hrec3 & Hsame3 & Hx3).
  rewrite Hrem in Hrem'. assert (o3 = Return tt) as -> by congruence.
  assert (m3' = m3) as -> by congruence. clear Hrem'.
  rewrite Hrem. destruct Hc3 as [Hrm3 Hun3].
  subst m0. cbn [fs store isSyncing result trace] in *.
  rewrite Hf2, Hf1 in *. subst listed.
  rewrite filter_outside in Hrm3 by apply gone_truthy.
  rewrite filter_outside in Hun3 by apply stillAccessible_truthy.
  rewrite Hs1 in *.
  assert (Hinscan : ∀ info, info ∈ files → localFilePath info ∈ scannedPaths files).
  { intros info Hin. unfold scannedPaths.
    by apply elem_of_list_to_set, list_elem_of_In, List.in_map, list_elem_of_In. }
  unfold bind, getResult, consoleLog. rewrite emit_spec.
  eexists; split; [reflexivity|]; cbn [fs store isSyncing result trace].
  split; [congruence|]. split; [congruence|]. split; [congruence|].
  rewrite Hr1 in *.
  split; [lia|]. split; [lia|].
  split; [|split; [|split; [|split]]].
  - (* every scanned path has a record *)
    intros info Hin. destruct (Hall2 info Hin) as (c & Hc & Hp).
    exists c. split; [|done]. apply Hrec3. split; [done|].
    intros (b & _ & Hg & Hb). destruct (gone_spec _ _ _ Hg) as (_ & Hout & _).
    apply Hout. rewrite Hp in Hb. injection Hb as <-. by apply Hinscan.
  - (* no record is outside the scan and inaccessible *)
    intros c [Hc Hno]%Hrec3.
    destruct (gone f1 (scannedPaths files) c) eqn:Hg; [|done]. exfalso.
    destruct (gone_spec _ _ _ Hg) as (Hv & Hout & _).
    rewrite Hrec2 in Hc. apply elem_of_app in Hc as [Hc|Hc].
    + apply Hno. exists c. split; [|done].
      apply list_elem_of_In, List.filter_In. split; [by apply list_elem_of_In|].
      by eapply gone_truthy.
    + apply (proj1 (Forall_forall _ _) Hcr) in Hc as (info & Hin & Hp).
      apply Hout. rewrite Hp; simpl. by apply Hinscan.
  - (* nothing had a record: all are added *)
    intros Hnodup Hno. rewrite Ha3. by apply Hfresh.
  - (* everything had a record and nothing is gone: the store is as it was *)
    intros Hall Hnogone.
    destruct (Hpresent Hall) as (m2' & Hadd' & _ & Hs2' & _ & Ha2' & _).
    rewrite Hadd in Hadd'. assert (m2' = m2) as -> by congruence.
    split; [congruence|]. rewrite Hsame3; [done|].
    intros b [Hb _]%list_elem_of_In%List.filter_In. apply Hnogone.
    by apply list_elem_of_In.
  - (* no error is printed after the scan *)
    cbn [snd]. apply extends_emit_r; [done|].
    eapply extends_trans; [|exact Hx3].
    by apply (extends_emit _ GetAllContent).
Qed.

(** C1, as the code has it.  Over the reference store and a file system
    that nothing else changes, a run that follows a run returns [added = 0]
    and [removed = 0] and leaves store and file system as they were.  Its
    scan gives what the first scan gave.  When the scan succeeds,
    [unchanged] is the number of scanned files plus the number of store
    records whose local path is outside the scan but still accessible, and
    [errors] is empty; when the scan throws, [unchanged] is 0 and [errors]
    holds the report of that failure. *)
Theorem second_run_changes_nothing m :
  ∃ r1 m1 r2 m2,
    syncLocalMediaFiles cwd m = (Return r1, m1) ∧
    syncLocalMediaFiles cwd m1 = (Return r2, m2) ∧
    added r2 = 0 ∧ removed r2 = 0 ∧
    fs m2 = fs m1 ∧ store m2 = store m1 ∧
    (scanLocalMediaFiles cwd (startRun m1)).1 = (scanLocalMediaFiles cwd (startRun m)).1 ∧
    match scanLocalMediaFiles cwd (startRun m1) with
    | (Return files, ms) =>
        unchanged r2 =
          List.length files
          + List.length (List.filter (stillAccessible (fs ms) (scannedPaths files))
                           (records (store m1))) ∧
        errors r2 = []
    | (Throw err, _) =>
        unchanged r2 = 0 ∧ errors r2 = ["Sync failed: " +:+ err]
    end.
Proof.
  rewrite (syncLocalMediaFiles_unfold cwd m).
  destruct (scanLocalMediaFiles_spec cwd (startRun m)) as (ms1 & Hscan1 & Hfs1 & _).
  rewrite Hscan1.
  destruct (scanResult cwd (fs (startRun m))) as [[files|err] f1] eqn:Hres;
    simpl in Hscan1, Hfs1.
  - (* the scan succeeds *)
    destruct (syncBody_mem (startRun m) files f1 Hres)
      as (mb & -> & Hfb & _ & _ & _ & _ & Hall & Hnogone & _ & _ & _).
    assert (Hres2 : scanResult cwd (fs (startRun mb)) = (Return files, f1)).
    { simpl. rewrite Hfb. by eapply scanResult_again. }
    destruct (scanLocalMediaFiles_spec cwd (startRun mb)) as (ms2 & Hscan2 & Hfs2 & _).
    rewrite Hres2 in Hscan2, Hfs2; simpl in Hscan2, Hfs2.
    destruct (syncBody_mem (startRun mb) files f1 Hres2)
      as (mb2 & Hbody2 & Hfb2 & _ & Herr2 & Hrm2 & Hsum2 & _ & _ & _ & Hstable & _).
    destruct (Hstable Hall Hnogone) as [Hadd2 Hstore2].
    rewrite (filter_none (gone f1 (scannedPaths files))) in Hrm2 by exact Hnogone.
    eexists _, mb, _, mb2. split; [reflexivity|].
    rewrite (syncLocalMediaFiles_unfold cwd mb), Hbody2, Hscan2.
    split; [reflexivity|]; simpl in *.
    rewrite Hfs2. repeat split; try lia; try congruence.
  - (* the scan throws *)
    pose proof (syncBody_cases cwd (startRun m)) as Hcases. rewrite Hres in Hcases.
    destruct Hcases as (mb & -> & Hfb & Hsb & _).
    assert (Hres2 : scanResult cwd (fs (startRun (syncFailed err mb))) = (Throw err, f1)).
    { simpl. rewrite Hfb. by eapply scanResult_again. }
    destruct (scanLocalMediaFiles_spec cwd (startRun (syncFailed err mb)))
      as (ms2 & Hscan2 & _).
    rewrite Hres2 in Hscan2; simpl in Hscan2.
    pose proof (syncBody_cases cwd (startRun (syncFailed err mb))) as Hcases.
    rewrite Hres2 in Hcases.
    destruct Hcases as (mb2 & Hbody2 & Hfb2 & Hsb2 & Hrb2 & _).
    eexists _, (syncFailed err mb), _, (syncFailed err mb2). split; [reflexivity|].
    rewrite (syncLocalMediaFiles_unfold cwd (syncFailed err mb)), Hbody2, Hscan2.
    split; [reflexivity|]; simpl in *.
    rewrite Hrb2; simpl. repeat split; congruence.
Qed.

End MemRun.

(** * What the scanner prints *)

Section ScanReports.
Context {S : Type}.
Variable cwd : string.

Implicit Types (m : Machine S).

Lemma reports_refl m : reports 0 m m.
Proof. exists []. by rewrite app_nil_r. Qed.

Lemma reports_trans n1 n2 m1 m2 m3 :
  reports n1 m1 m2 → reports n2 m2 m3 → reports (n1 + n2) m1 m3.
Proof.
  intros (l1 & H1 & <-) (l2 & H2 & <-). exists (l1 ++ l2)%list.
  rewrite H2, H1, app_assoc. split; [done|].
  by rewrite List.filter_app, length_app.
Qed.

Lemma reports_of_extends m m' :
  extends (λ e, isErrorReport e = false) m m' → reports 0 m m'.
Proof.
  intros (new & H & F). exists new. split; [done|].
  by rewrite filter_none; [|intros e He; apply (proj1 (Forall_forall _ _) F)].
Qed.

Lemma scanEntry_reports dirPath type allowed file acc m :
  reports
    (List.length (List.filter (statFails (fs m))
                    (List.map (Path.join dirPath) (matching allowed [file]))))
    m (scanEntry dirPath type allowed file acc m).2.
Proof.
  unfold scanEntry, matching; simpl.
  destruct (includes allowed _); simpl; [|apply reports_refl].
  unfold tryCatch, getFileStats, bind, fsStat, bind, emit, ofOutcome, statFails; simpl.
  destruct (statSize (fs m) (Path.join dirPath file)) as [size|e]; simpl.
  - by exists [FsStat (Path.join dirPath file)].
  - eexists [_; _]. by rewrite <-app_assoc.
Qed.

Lemma matching_cons allowed file files :
  matching allowed (file :: files) = (matching allowed [file] ++ matching allowed files)%list.
Proof. unfold matching; simpl. by destruct (includes allowed _). Qed.

Lemma scanEntries_reports dirPath type allowed files :
  ∀ acc m,
  reports
    (List.length (List.filter (statFails (fs m))
                    (List.map (Path.join dirPath) (matching allowed files))))
    m (scanEntries dirPath type allowed files acc m).2.
Proof.
  induction files as [|file files IH]; intros acc m; [apply reports_refl|].
  rewrite matching_cons, List.map_app, List.filter_app, length_app.
  simpl scanEntries. unfold bind.
  pose proof (scanEntry_reports dirPath type allowed file acc m) as H1.
  destruct (scanEntry_spec dirPath type allowed file acc m) as (m1 & Heq & (Hf & _) & _).
  rewrite Heq in *. simpl in H1.
  eapply reports_trans; [exact H1|]. rewrite <-Hf. apply IH.
Qed.

Lemma scanDirectory_reports dirPath type allowed files m :
  accessible (fs m) dirPath = true →
  entries (fs m) dirPath = Return files →
  reports
    (List.length (List.filter (statFails (fs m))
                    (List.map (Path.join dirPath) (matching allowed files))))
    m (scanDirectory dirPath type allowed m).2.
Proof.
  intros Hacc Hent.
  unfold scanDirectory, tryCatchReturn, fsAccess, bind at 1.
  rewrite emit_spec; simpl. rewrite Hacc.
  unfold bind at 1, fsReaddir, bind at 1. rewrite emit_spec; simpl.
  rewrite Hent; simpl.
  match goal with |- reports _ _ (scanEntries _ _ _ _ _ ?m0).2 =>
    pose proof (scanEntries_reports dirPath type allowed files [] m0) as H
  end.
  simpl in H. destruct H as (new & Ht & Hn).
  exists (FsAccess dirPath :: FsReaddir dirPath :: new).
  split; [|done]. rewrite Ht. cbn [trace]. by rewrite <-!app_assoc.
Qed.

Lemma scanDirectory_listed dirPath type allowed files m :
  accessible (fs m) dirPath = true →
  entries (fs m) dirPath = Return files →
  ∃ m', scanDirectory dirPath type allowed m =
          (Return (omap (describe (statSize (fs m)) dirPath type allowed) files), m') ∧
        fs m' = fs m ∧
        reports
          (List.length (List.filter (statFails (fs m))
                          (List.map (Path.join dirPath) (matching allowed files))))
          m m'.
Proof.
  intros Hacc Hent.
  pose proof (scanDirectory_reports dirPath type allowed files m Hacc Hent) as Hrep.
  destruct (scanDirectory_spec dirPath type allowed m) as (m' & Heq & Hf & _).
  unfold scanDirectoryResult in Heq, Hf. rewrite Hacc, Hent in Heq, Hf.
  exists m'. rewrite Heq in Hrep. done.
Qed.

(** When both directories are there and can be listed, the scan returns the
    descriptors of both listings and prints one error for each candidate
    whose stat fails. *)
Lemma scanLocalMediaFiles_reports imgs vids m :
  accessible (fs m) (IMAGES_DIR cwd) = true →
  accessible (fs m) (VIDEOS_DIR cwd) = true →
  entries (fs m) (IMAGES_DIR cwd) = Return imgs →
  entries (fs m) (VIDEOS_DIR cwd) = Return vids →
  reports (List.length (List.filter (statFails (fs m)) (candidates cwd imgs vids)))
    m (scanLocalMediaFiles cwd m).2 ∧
  scanResult cwd (fs m) =
    (Return (omap (describe (statSize (fs m)) (IMAGES_DIR cwd) image IMAGE_EXTENSIONS) imgs ++
             omap (describe (statSize (fs m)) (VIDEOS_DIR cwd) video VIDEO_EXTENSIONS) vids)%list,
     fs m).
Proof.
  intros Hai Hav Hei Hev. split; cycle 1.
  { unfold scanResult, scanDirectoryResult. by rewrite Hai, Hei, Hav, Hev. }
  unfold candidates. rewrite List.filter_app, length_app.
  unfold scanLocalMediaFiles, bind at 1, consoleLog. rewrite emit_spec.
  unfold bind at 1, promiseAll.
  match goal with |- context [scanDirectory (IMAGES_DIR cwd) image IMAGE_EXTENSIONS ?m0] =>
    destruct (scanDirectory_listed (IMAGES_DIR cwd) image IMAGE_EXTENSIONS imgs m0 Hai Hei)
      as (m1 & Heq1 & Hf1 & H1)
  end.
  rewrite Heq1. cbn [fs] in *.
  rewrite <-Hf1 in Hav, Hev.
  destruct (scanDirectory_listed (VIDEOS_DIR cwd) video VIDEO_EXTENSIONS vids m1 Hav Hev)
    as (m2 & Heq2 & Hf2 & H2).
  rewrite Heq2. unfold bind, ret. rewrite emit_spec. cbn [snd].
  rewrite Hf1 in H2.
  destruct H1 as (l1 & Ht1 & Hn1), H2 as (l2 & Ht2 & Hn2). cbn [trace] in Ht1.
  eexists (ConsoleLog "Scanning local media files..." :: l1 ++ l2 ++ [ConsoleLog _])%list.
  cbn [trace]. rewrite Ht2, Ht1, <-!app_assoc. split; [reflexivity|].
  simpl. rewrite !List.filter_app, !length_app; simpl. lia.
Qed.

(** The scan of a directory goes through its listing when it is there, and
    through nothing when it is missing and gets created. *)
Lemma scanDirectory_scanned dirPath type allowed files m :
  scannedEntries (fs m) dirPath = Return files →
  ∃ m', scanDirectory dirPath type allowed m =
          (Return (omap (describe (statSize (fs m)) dirPath type allowed) files), m') ∧
        statSize (fs m') = statSize (fs m) ∧
        (∀ other, other ≠ dirPath → isAncestor other dirPath = false →
           scannedEntries (fs m') other = scannedEntries (fs m) other) ∧
        reports
          (List.length (List.filter (statFails (fs m))
                          (List.map (Path.join dirPath) (matching allowed files))))
          m m'.
Proof.
  unfold scannedEntries at 1. destruct (accessible (fs m) dirPath) eqn:Hacc.
  - intros Hent.
    destruct (scanDirectory_listed dirPath type allowed files m Hacc Hent)
      as (m' & Heq & Hf & Hrep).
    exists m'. by rewrite Hf.
  - destruct (mkdirError (fs m) dirPath) eqn:Hmk; [done|]. intros [= <-].
    rewrite scanDirectory_missing by done.
    eexists; split; [reflexivity|]; simpl. split; [done|]. split.
    + intros other Hne Hanc. unfold scannedEntries; simpl.
      by rewrite Hanc, bool_decide_eq_false_2.
    + eexists [_; _; _]. by split.
Qed.

(** When neither directory scan throws, the scan returns the descriptors of
    the entries it went through and prints one error for each candidate
    whose stat fails. *)
Lemma scanLocalMediaFiles_scanned imgs vids m :
  scannedEntries (fs m) (IMAGES_DIR cwd) = Return imgs →
  scannedEntries (fs m) (VIDEOS_DIR cwd) = Return vids →
  ∃ m',
    scanLocalMediaFiles cwd m =
      (Return (omap (describe (statSize (fs m)) (IMAGES_DIR cwd) image IMAGE_EXTENSIONS) imgs ++
               omap (describe (statSize (fs m)) (VIDEOS_DIR cwd) video VIDEO_EXTENSIONS) vids)%list,
       m') ∧
    reports (List.length (List.filter (statFails (fs m)) (candidates cwd imgs vids))) m m'.
Proof.
  intros Hi Hv.
  unfold candidates. rewrite List.filter_app, length_app.
  unfold scanLocalMediaFiles, bind at 1, consoleLog. rewrite emit_spec.
  unfold bind at 1, promiseAll.
  match goal with |- context [scanDirectory (IMAGES_DIR cwd) image IMAGE_EXTENSIONS ?m0] =>
    destruct (scanDirectory_scanned (IMAGES_DIR cwd) image IMAGE_EXTENSIONS imgs m0 Hi)
      as (m1 & Heq1 & Hs1 & Ho1 & H1)
  end.
  rewrite Heq1. cbn [fs] in *.
  rewrite <-(Ho1 (VIDEOS_DIR cwd)) in Hv; cycle 1.
  { intros Heq. by apply (IMAGES_DIR_ne_VIDEOS_DIR cwd). }
  { apply VIDEOS_DIR_not_above_IMAGES_DIR. }
  destruct (scanDirectory_scanned (VIDEOS_DIR cwd) video VIDEO_EXTENSIONS vids m1 Hv)
    as (m2 & Heq2 & Hs2 & _ & H2).
  rewrite Heq2. unfold bind, ret. rewrite emit_spec. cbn [fst snd].
  unfold statFails in *. rewrite Hs1 in *.
  eexists; split; [reflexivity|].
  destruct H1 as (l1 & Ht1 & Hn1), H2 as (l2 & Ht2 & Hn2). cbn [trace] in Ht1.
  eexists (ConsoleLog "Scanning local media files..." :: l1 ++ l2 ++ [ConsoleLog _])%list.
  cbn [trace]. rewrite Ht2, Ht1, <-!app_assoc. split; [reflexivity|].
  simpl. rewrite !List.filter_app, !length_app; simpl. lia.
Qed.

End ScanReports.

(** * Scan failures and the result of a run *)

Section ScanFailures.
Variable cwd : string.

Implicit Types (m : Machine MemStorage).

Lemma length_omap_describe f dirPath type allowed names :
  List.length (omap (describe (statSize f) dirPath type allowed) names)
  + List.length (List.filter (statFails f)
                   (List.map (Path.join dirPath) (matching allowed names)))
  = List.length (matching allowed names).
Proof.
  induction names as [|file names IH]; [done|].
  unfold matching in *; simpl in IH |- *. unfold describe at 1.
  destruct (includes allowed (Str.toLowerCase (Path.extname file))); simpl; [|exact IH].
  destruct (statSize f (Path.join dirPath file)) as [size|err] eqn:Hstat.
  - assert (statFails f (Path.join dirPath file) = false) as ->
      by (unfold statFails; by rewrite Hstat).
    simpl. f_equal. exact IH.
  - assert (statFails f (Path.join dirPath file) = true) as ->
      by (unfold statFails; by rewrite Hstat).
    simpl. rewrite Nat.add_succ_r. f_equal. exact IH.
Qed.

Lemma elem_of_paths_describe stat dirPath type allowed names p :
  p ∈ List.map localFilePath (omap (describe stat dirPath type allowed) names) →
  ∃ file, file ∈ names ∧ p = Path.join dirPath file.
Proof.
  intros (info & <- & Hin)%list_elem_of_In%List.in_map_iff.
  apply list_elem_of_In, list_elem_of_omap in Hin as (file & Hfile & Hd).
  exists file. split; [done|]. by eapply describe_localFilePath.
Qed.

Lemma NoDup_paths_describe stat dirPath type allowed names :
  NoDup names →
  NoDup (List.map localFilePath (omap (describe stat dirPath type allowed) names)).
Proof.
  induction 1 as [|file names Hnotin Hnodup IH]; simpl; [constructor|].
  destruct (describe stat dirPath type allowed file) as [info|] eqn:Hd; [|done].
  simpl. constructor; [|done].
  rewrite (describe_localFilePath _ _ _ _ _ _ Hd).
  intros (file' & Hin & Heq%join_inj)%elem_of_paths_describe. by subst.
Qed.

Lemma NoDup_scanned_paths f imgs vids :
  NoDup imgs → NoDup vids →
  NoDup (List.map localFilePath
           (omap (describe (statSize f) (IMAGES_DIR cwd) image IMAGE_EXTENSIONS) imgs ++
            omap (describe (statSize f) (VIDEOS_DIR cwd) video VIDEO_EXTENSIONS) vids)).
Proof.
  intros Hi Hv. rewrite List.map_app. apply NoDup_app.
  split; [by apply NoDup_paths_describe|]. split; [|by apply NoDup_paths_describe].
  intros p (a & _ & ->)%elem_of_paths_describe (b & _ & Heq)%elem_of_paths_describe.
  by apply join_IMAGES_ne_join_VIDEOS in Heq.
Qed.

(** C2, as the code has it.  The store has no record, three of the entries
    that the scan goes through pass the extension filter and the stat of
    exactly one of them throws: the run returns [added = 2], [removed = 0],
    [unchanged = 0] and an empty [errors]; the failure is printed on the
    console, once, and the file is skipped.  A media directory is gone
    through when it is there and can be listed; a missing directory that
    gets created has no entry. *)
Theorem scan_failure_is_logged_not_reported m imgs vids :
  scannedEntries (fs m) (IMAGES_DIR cwd) = Return imgs →
  scannedEntries (fs m) (VIDEOS_DIR cwd) = Return vids →
  NoDup imgs → NoDup vids →
  records (store m) = [] →
  List.length (candidates cwd imgs vids) = 3 →
  List.length (List.filter (statFails (fs m)) (candidates cwd imgs vids)) = 1 →
  ∃ m' new,
    syncLocalMediaFiles cwd m =
      (Return {| added := 2; removed := 0; unchanged := 0; errors := [] |}, m') ∧
    trace m' = (trace m ++ new)%list ∧
    List.length (List.filter isErrorReport new) = 1.
Proof.
  intros Hei Hev Hni Hnv Hempty Hthree Hone.
  destruct (scanLocalMediaFiles_scanned cwd imgs vids (startRun m) Hei Hev)
    as (m1 & Hscan & Hrep).
  destruct (scanResult_of_scan cwd _ _ _ Hscan) as (Hres & _).
  cbn [fs startRun] in Hrep, Hres.
  destruct (syncBody_mem cwd (startRun m) _ _ Hres)
    as (mb & Hbody & _ & _ & Herr & Hrm & Hsum & _ & _ & Hfresh & _ & Hx).
  rewrite Hscan in Hx.
  cbn [store result startRun freshResult added removed unchanged errors snd] in *.
  rewrite Hempty in *. simpl in Hrm, Hsum.
  assert (Hadd := Hfresh (NoDup_scanned_paths _ _ _ Hni Hnv)
                    (λ info c _ Hc, False_ind _ (proj1 (elem_of_nil c) Hc))).
  clear Hfresh.
  assert (Hlen : List.length
            (omap (describe (statSize (fs m)) (IMAGES_DIR cwd) image IMAGE_EXTENSIONS) imgs ++
             omap (describe (statSize (fs m)) (VIDEOS_DIR cwd) video VIDEO_EXTENSIONS) vids)
            = 2).
  { unfold candidates in Hthree, Hone.
    rewrite List.filter_app in Hone. rewrite !length_app, !length_map in *.
    pose proof (length_omap_describe (fs m) (IMAGES_DIR cwd) image IMAGE_EXTENSIONS imgs).
    pose proof (length_omap_describe (fs m) (VIDEOS_DIR cwd) video VIDEO_EXTENSIONS vids).
    lia. }
  rewrite Hlen in *.
  apply reports_of_extends in Hx.
  pose proof (reports_trans _ _ _ _ _ Hrep Hx) as (new & Htrace & Hnew).
  rewrite Hone in Hnew. cbn [trace startRun] in Htrace.
  exists mb, (ConsoleLog "Starting local media sync..." :: new).
  rewrite syncLocalMediaFiles_unfold, Hbody.
  split; [|split].
  - f_equal. destruct (result mb) as [a r u e]; simpl in *.
    assert (u = 0) by lia. by subst.
  - by rewrite Htrace, <-app_assoc.
  - done.
Qed.

End ScanFailures.

(** * Concrete runs *)

(** The idempotence property as the spec words it fails here.  The images
    directory holds [a.jpg]; the store has a
    record for [/srv/export/b.png], which exists but is outside the media
    directories, and a record for a file that is gone.  The second of two
    successive runs scans one file and returns [unchanged = 2]. *)
Lemma second_run_unchanged_counts_more_than_scan :
  let m0 := initialMachine exportFs exportStore in
  let m1 := (syncLocalMediaFiles "/app" m0).2 in
  (syncLocalMediaFiles "/app" m0).1
    = Return {| added := 1; removed := 1; unchanged := 1; errors := [] |} ∧
  (syncLocalMediaFiles "/app" m1).1
    = Return {| added := 0; removed := 0; unchanged := 2; errors := [] |} ∧
  ¬ ∃ r2 m2 files ms,
      syncLocalMediaFiles "/app" m1 = (Return r2, m2) ∧
      scanLocalMediaFiles "/app" (startRun m1) = (Return files, ms) ∧
      added r2 = 0 ∧ removed r2 = 0 ∧ unchanged r2 = List.length files.
Proof.
  split; [by vm_compute|]. split; [by vm_compute|].
  intros (r2 & m2 & files & ms & Hrun & Hscan & _ & _ & Hun).
  apply (f_equal fst) in Hrun, Hscan.
  vm_compute in Hrun, Hscan.
  injection Hrun as <-. injection Hscan as <-. simpl in Hun. lia.
Qed.

(** The scenario of the spec with one failing stat fails here.  Three images
    are scanned over an empty store and
    the stat of one of them is denied: the run returns [added = 2] and
    [unchanged = 0], but [errors] is empty. *)
Lemma scan_failure_leaves_errors_empty :
  let m0 := initialMachine deniedFs emptyStore in
  List.length (candidates "/app" ["a.jpg"; "b.png"; "c.jpeg"] []) = 3 ∧
  List.filter (statFails deniedFs) (candidates "/app" ["a.jpg"; "b.png"; "c.jpeg"] [])
    = ["/app/server/media/images/c.jpeg"] ∧
  (syncLocalMediaFiles "/app" m0).1
    = Return {| added := 2; removed := 0; unchanged := 0; errors := [] |} ∧
  ¬ ∃ r m',
      syncLocalMediaFiles "/app" m0 = (Return r, m') ∧
      added r = 2 ∧ unchanged r = 0 ∧ List.length (errors r) = 1.
Proof.
  split; [by vm_compute|]. split; [by vm_compute|]. split; [by vm_compute|].
  intros (r & m' & Hrun & _ & _ & Herr).
  apply (f_equal fst) in Hrun. vm_compute in Hrun.
  injection Hrun as <-. simpl in Herr. lia.
Qed.

(** The missing-directory rule as the spec words it fails here.  Nothing
    exists and the media root is read-only: the images directory is missing,
    its [mkdir] rejects and [scanDirectory] throws; the directory is still
    missing afterwards, and the run reports the failure. *)
Lemma missing_directory_that_cannot_be_created :
  let m0 := initialMachine readOnlyFs emptyStore in
  let dir := IMAGES_DIR "/app" in
  accessible readOnlyFs dir = false ∧
  (scanDirectory dir image IMAGE_EXTENSIONS m0).1
    = Throw "Error: EACCES: permission denied, mkdir" ∧
  accessible (fs (scanDirectory dir image IMAGE_EXTENSIONS m0).2) dir = false ∧
  (syncLocalMediaFiles "/app" m0).1
    = Return {| added := 0; removed := 0; unchanged := 0;
                errors := ["Sync failed: Error: EACCES: permission denied, mkdir"] |} ∧
  ¬ ∃ m' r mr,
      scanDirectory dir image IMAGE_EXTENSIONS m0 = (Return [], m') ∧
      accessible (fs m') dir = true ∧
      syncLocalMediaFiles "/app" m0 = (Return r, mr) ∧
      errors r = [].
Proof.
  split; [by vm_compute|]. split; [by vm_compute|]. split; [by vm_compute|].
  split; [by vm_compute|].
  intros (m' & r & mr & Hscan & _).
  apply (f_equal fst) in Hscan. vm_compute in Hscan. discriminate Hscan.
Qed.

(** C3 fails on the code.  The store lists two records whose files are gone
    and rejects the deletion of the first.  The rejection reaches the outer
    handler: it is reported as a failure of the whole run, and the second
    record is never looked at - no access check, no deletion - and stays in
    the store.  A rejected creation in the addition pass, by contrast, is
    recorded for its file and the next file is still added. *)
Theorem failed_deletion_ends_the_removal_pass :
  let run := syncLocalMediaFiles "/app" (initialMachine emptyDirsFs staleStore) in
  let run' := syncLocalMediaFiles "/app" (initialMachine twoImagesFs pickyStore) in
  run.1 = Return {| added := 0; removed := 0; unchanged := 0;
                    errors := ["Sync failed: Error: delete failed"] |} ∧
  trace run.2 =
    [ConsoleLog "Starting local media sync...";
     ConsoleLog "Scanning local media files...";
     FsAccess "/app/server/media/images";
     FsReaddir "/app/server/media/images";
     FsAccess "/app/server/media/videos";
     FsReaddir "/app/server/media/videos";
     ConsoleLog "Found 0 images and 0 videos";
     GetAllContent;
     FsAccess "/app/server/media/images/old1.png";
     DeleteContentByLocalPath "/app/server/media/images/old1.png";
     ConsoleError "Sync failed: Error: delete failed"] ∧
  records (mem (store run.2)) = records (mem staleStore) ∧
  run'.1 = Return {| added := 1; removed := 0; unchanged := 0;
                     errors := ["Error adding a: Error: insert failed"] |} ∧
  List.map c_localFilePath (records (mem (store run'.2)))
    = [Value "/app/server/media/images/b.png"].
Proof. by vm_compute. Qed.

(** Two concrete instances: the three images of [deniedFs], and the same
    images with the videos directory missing. *)
Lemma scan_failure_is_logged_not_reported_witness :
  (∃ m' new,
    syncLocalMediaFiles "/app" (initialMachine deniedFs emptyStore) =
      (Return {| added := 2; removed := 0; unchanged := 0; errors := [] |}, m') ∧
    trace m' = (trace (initialMachine deniedFs emptyStore) ++ new)%list ∧
    List.length (List.filter isErrorReport new) = 1) ∧
  (∃ m' new,
    syncLocalMediaFiles "/app" (initialMachine deniedNoVideosFs emptyStore) =
      (Return {| added := 2; removed := 0; unchanged := 0; errors := [] |}, m') ∧
    trace m' = (trace (initialMachine deniedNoVideosFs emptyStore) ++ new)%list ∧
    List.length (List.filter isErrorReport new) = 1).
Proof.
  split.
  - apply (scan_failure_is_logged_not_reported "/app"
             (initialMachine deniedFs emptyStore) ["a.jpg"; "b.png"; "c.jpeg"] []).
    + reflexivity.
    + reflexivity.
    + apply (bool_decide_unpack _). vm_compute. exact I.
    + constructor.
    + reflexivity.
    + reflexivity.
    + reflexivity.
  - apply (scan_failure_is_logged_not_reported "/app"
             (initialMachine deniedNoVideosFs emptyStore) ["a.jpg"; "b.png"; "c.jpeg"] []).
    + reflexivity.
    + reflexivity.
    + apply (bool_decide_unpack _). vm_compute. exact I.
    + constructor.
    + reflexivity.
    + reflexivity.
    + reflexivity.
Defined.

(** A concrete instance: a machine whose flag is set. *)
Lemma syncWithLock_skips_while_syncing_witness :
  ∃ m',
    syncWithLock "/app" (acquire (initialMachine exportFs exportStore)) = (Return None, m') ∧
    trace m' = [ConsoleLog "Sync already in progress, skipping..."] ∧
    List.filter isStoreMutation
      (drop 0 (trace m')) = [] ∧
    store m' = exportStore ∧ fs m' = exportFs ∧ result m' = freshResult ∧
    isSyncing m' = true.
Proof.
  apply (syncWithLock_skips_while_syncing "/app"
           (acquire (initialMachine exportFs exportStore))).
  reflexivity.
Defined.

(** A concrete instance: an engine that throws. *)
Lemma syncWithLock_releases_flag_witness :
  let m0 := initialMachine exportFs exportStore in
  isSyncing (runExclusive (throw (A:=SyncResult) "Error: unexpected") m0).2 = false ∧
  (runExclusive (throw (A:=SyncResult) "Error: unexpected") m0).1 =
    match (throw (A:=SyncResult) "Error: unexpected" (acquire m0)).1 with
    | Return r => Return (Some r)
    | Throw e => Throw e
    end ∧
  isSyncing (syncWithLock "/app" m0).2 = false ∧
  (∃ r m'', syncWithLock "/app"
              (runExclusive (throw (A:=SyncResult) "Error: unexpected") m0).2
            = (Return (Some r), m'')) ∧
  (∃ r m'', syncWithLock "/app" (syncWithLock "/app" m0).2 = (Return (Some r), m'')).
Proof.
  apply (syncWithLock_releases_flag "/app" (throw (A:=SyncResult) "Error: unexpected")
           (initialMachine exportFs exportStore)).
  reflexivity.
Defined.



(** A concrete instance: the images directory on a blank file system. *)
Lemma scanDirectory_creates_missing_directory_witness :
  let m := initialMachine blankFs emptyStore in
  let dirPath := IMAGES_DIR "/app" in
  (∃ m',
    scanDirectory dirPath image IMAGE_EXTENSIONS m = (Return [], m') ∧
    trace m' =
      (trace m ++
       [FsAccess dirPath;
        ConsoleLog ("Directory " +:+ dirPath +:+ " does not exist, creating it...");
        FsMkdir dirPath true])%list ∧
    List.filter isErrorReport (drop (List.length (trace m)) (trace m')) = [] ∧
    result m' = result m ∧ store m' = store m ∧
    fs m' = afterMkdir dirPath (fs m) ∧
    accessible (fs m') dirPath = true ∧
    entries (fs m') dirPath = Return [] ∧
    (∀ q, isAncestor q dirPath = true → accessible (fs m') q = true)) ∧
  (∀ m0 : Machine MemStorage,
     accessible (fs m0) (IMAGES_DIR "/app") = false →
     accessible (fs m0) (VIDEOS_DIR "/app") = false →
     mkdirError (fs m0) (IMAGES_DIR "/app") = None →
     mkdirError (fs m0) (VIDEOS_DIR "/app") = None →
     ∃ m',
       scanLocalMediaFiles "/app" m0 = (Return [], m') ∧
       reports 0 m0 m' ∧
       result m' = result m0 ∧ store m' = store m0 ∧
       accessible (fs m') (IMAGES_DIR "/app") = true ∧
       accessible (fs m') (VIDEOS_DIR "/app") = true).
Proof.
  intros m dirPath.
  apply (scanDirectory_creates_missing_directory "/app" dirPath image IMAGE_EXTENSIONS m).
  - reflexivity.
  - reflexivity.
Defined.

(** * Strings: suffixes and lower case *)

Section StringFacts.

Lemma length_append (a b : string) :
  String.length (a +:+ b) = String.length a + String.length b.
Proof. induction a as [|x a IH]; [done|]. rewrite append_cons; simpl. by rewrite IH. Qed.

Lemma append_nil_r (a : string) : a +:+ "" = a.
Proof. induction a as [|x a IH]; [done|]. by rewrite append_cons, IH. Qed.

Lemma rev_app_append (s acc : string) :
  String.rev_app s acc = String.rev_app s "" +:+ acc.
Proof.
  revert acc. induction s as [|x s IH]; intros acc; [done|]; simpl.
  rewrite (IH (String x acc)), (IH (String x "")). by rewrite append_assoc.
Qed.

Lemma rev_cons x (s : string) : String.rev (String x s) = String.rev s +:+ String x "".
Proof. unfold String.rev; simpl. apply rev_app_append. Qed.

Lemma rev_append (a b : string) :
  String.rev (a +:+ b) = String.rev b +:+ String.rev a.
Proof.
  induction a as [|x a IH].
  - change ("" +:+ b) with b. by rewrite append_nil_r.
  - by rewrite append_cons, !rev_cons, IH, append_assoc.
Qed.

Lemma rev_involutive (s : string) : String.rev (String.rev s) = s.
Proof.
  induction s as [|x s IH]; [done|].
  by rewrite rev_cons, rev_append, IH.
Qed.

Lemma prefix_append_self (a c : string) : String.prefix a (a +:+ c) = true.
Proof.
  induction a as [|x a IH]; [by destruct c|].
  rewrite append_cons; simpl. by destruct (ascii_dec x x).
Qed.

Lemma prefix_true_inv (a b : string) :
  String.prefix a b = true → ∃ c, b = a +:+ c.
Proof.
  revert b. induction a as [|x a IH]; intros b; [by exists b|].
  destruct b as [|y b]; simpl; [done|].
  destruct (ascii_dec x y) as [->|]; [|done].
  intros (c & ->)%IH. by exists c.
Qed.

Lemma endsWith_append (stem e : string) : Str.endsWith (stem +:+ e) e = true.
Proof. unfold Str.endsWith. rewrite rev_append. apply prefix_append_self. Qed.

Lemma endsWith_inv (s e : string) :
  Str.endsWith s e = true → ∃ pre, s = pre +:+ e.
Proof.
  unfold Str.endsWith. intros (c & Hc)%prefix_true_inv.
  exists (String.rev c).
  by rewrite <-(rev_involutive s), Hc, rev_append, rev_involutive.
Qed.

Lemma take_append (a b : string) : Str.take (String.length a) (a +:+ b) = a.
Proof.
  induction a as [|x a IH]; [by destruct b|].
  rewrite append_cons; simpl. by rewrite IH.
Qed.

Lemma append_inj_length (a b c d : string) :
  a +:+ b = c +:+ d → String.length b = String.length d → a = c ∧ b = d.
Proof.
  revert c. induction a as [|x a IH]; intros c Heq Hlen.
  - destruct c as [|y c]; [done|]. exfalso.
    apply (f_equal String.length) in Heq.
    change ("" +:+ b) with b in Heq. rewrite length_append in Heq. simpl in Heq. lia.
  - destruct c as [|y c].
    + exfalso. apply (f_equal String.length) in Heq.
      change ("" +:+ d) with d in Heq. rewrite length_append in Heq. simpl in Heq. lia.
    + rewrite !append_cons in Heq. injection Heq as -> Heq.
      destruct (IH c Heq Hlen) as [-> ->]. done.
Qed.

Lemma lowerChar_idemp c : Str.lowerChar (Str.lowerChar c) = Str.lowerChar c.
Proof. by destruct c as [[] [] [] [] [] [] [] []]. Qed.

Lemma toLowerCase_idemp (s : string) :
  Str.toLowerCase (Str.toLowerCase s) = Str.toLowerCase s.
Proof. induction s as [|x s IH]; [done|]; simpl. by rewrite lowerChar_idemp, IH. Qed.

Lemma length_toLowerCase (s : string) :
  String.length (Str.toLowerCase s) = String.length s.
Proof. induction s as [|x s IH]; [done|]; simpl. by rewrite IH. Qed.

Lemma fromLastDot_suffix (s e : string) :
  Path.fromLastDot s = Some e → ∃ pre, s = pre +:+ e.
Proof.
  revert e. induction s as [|x s IH]; intros e; simpl; [done|].
  destruct (Path.fromLastDot s) as [e'|].
  - intros [= <-]. destruct (IH e' eq_refl) as (pre & ->).
    by exists (String x pre).
  - case_bool_decide; [|done]. intros [= <-]. by exists "".
Qed.

(** A file name with an extension is a non-empty stem followed by the
    extension. *)
Lemma extname_suffix (file : string) :
  Path.extname file ≠ "" →
  ∃ stem, stem ≠ "" ∧ file = stem +:+ Path.extname file.
Proof.
  unfold Path.extname. destruct file as [|x rest]; [done|].
  case_bool_decide; [done|].
  destruct (Path.fromLastDot rest) as [e|] eqn:Hdot; [|done]. simpl. intros _.
  destruct (fromLastDot_suffix _ _ Hdot) as (pre & ->).
  by exists (String x pre).
Qed.

(** The title that [scanDirectory] derives: the stem when the extension is
    written in lower case, the whole file name otherwise. *)
Lemma basename_lowered_extname (file stem : string) :
  stem ≠ "" → Path.extname file ≠ "" →
  file = stem +:+ Path.extname file →
  Path.basename file (Str.toLowerCase (Path.extname file)) =
    if bool_decide (Path.extname file = Str.toLowerCase (Path.extname file))
    then stem else file.
Proof.
  intros Hstem Hext Hfile. set (e := Path.extname file) in *.
  assert (Hlen : String.length file = String.length stem + String.length e).
  { by rewrite Hfile at 1; rewrite length_append. }
  assert (0 < String.length stem) by (destruct stem; [done|simpl; lia]).
  assert (0 < String.length e) by (destruct e; [done|simpl; lia]).
  unfold Path.basename.
  rewrite bool_decide_eq_false_2; cycle 1.
  { intros Hnil. apply (f_equal String.length) in Hnil.
    rewrite length_toLowerCase in Hnil. simpl in Hnil. lia. }
  rewrite length_toLowerCase.
  destruct (Nat.ltb_spec (String.length file) (String.length e)) as [?|_]; [lia|].
  simpl. rewrite bool_decide_eq_false_2; cycle 1.
  { intros Heq. apply (f_equal String.length) in Heq.
    rewrite length_toLowerCase in Heq. lia. }
  case_bool_decide as Hlow.
  - rewrite <-Hlow. rewrite Hfile at 1. rewrite endsWith_append.
    replace (String.length file - String.length e) with (String.length stem) by lia.
    rewrite Hfile. apply take_append.
  - destruct (Str.endsWith file (Str.toLowerCase e)) eqn:Hends; [|done].
    exfalso. apply endsWith_inv in Hends as (pre & Hpre).
    rewrite Hfile in Hpre.
    apply append_inj_length in Hpre as [_ Heq]; [done|].
    by rewrite length_toLowerCase.
Qed.

End StringFacts.

(** * The scanner: what it returns *)

Section ScannerProperties.
Context {S : Type}.
Variable cwd : string.

Implicit Types (m : Machine S).

Lemma getMimeType_toLowerCase (e : string) :
  getMimeType (Str.toLowerCase e) = getMimeType e.
Proof. unfold getMimeType. by rewrite toLowerCase_idemp. Qed.

Lemma mime_of_kind (t : MediaType) (ext : string) :
  ext ∈ kindExtensions t →
  String.prefix (kindPrefix t) (getMimeType ext) = true ∧ ext ≠ "".
Proof.
  destruct t; simpl; unfold IMAGE_EXTENSIONS, VIDEO_EXTENSIONS; intros Hin;
    repeat (apply elem_of_cons in Hin as [->|Hin]; [by vm_compute|]);
    by apply elem_of_nil in Hin.
Qed.

Lemma describe_Some stat dirPath kind allowed file info :
  describe stat dirPath kind allowed file = Some info →
  Str.toLowerCase (Path.extname file) ∈ allowed ∧
  stat (Path.join dirPath file) = Return (fileSize info) ∧
  title info = Path.basename file (Str.toLowerCase (Path.extname file)) ∧
  type info = kind ∧
  localFilePath info = Path.join dirPath file ∧
  mimeType info = getMimeType (Str.toLowerCase (Path.extname file)).
Proof.
  unfold describe, includes. case_bool_decide as Hin; [|done].
  destruct (stat (Path.join dirPath file)) as [size|err]; [|done].
  by intros [= <-].
Qed.

Lemma scanDirectoryResult_origin f dirPath type allowed files f' info :
  scanDirectoryResult f dirPath type allowed = (Return files, f') →
  info ∈ files →
  accessible f dirPath = true ∧
  ∃ names file,
    entries f dirPath = Return names ∧ file ∈ names ∧
    describe (statSize f) dirPath type allowed file = Some info.
Proof.
  unfold scanDirectoryResult.
  destruct (accessible f dirPath).
  - destruct (entries f dirPath) as [names|]; [|done]. intros [= <- <-].
    intros (file & Hfile & Hd)%list_elem_of_omap. split; [done|]. eauto.
  - destruct (mkdirError f dirPath); [done|]. intros [= <- <-].
    by intros ?%elem_of_nil.
Qed.

Lemma scanDirectoryResult_other f dirPath type allowed o f' other :
  scanDirectoryResult f dirPath type allowed = (o, f') →
  other ≠ dirPath → isAncestor other dirPath = false →
  accessible f' other = accessible f other ∧
  entries f' other = entries f other ∧
  statSize f' = statSize f ∧ mkdirError f' = mkdirError f.
Proof.
  intros Hscan Hne Hanc.
  destruct (scanDirectoryResult_fs _ _ _ _ _ _ Hscan) as [->|(-> & _ & _)]; [done|].
  simpl. by rewrite Hanc, bool_decide_eq_false_2.
Qed.

(** Where a scanned descriptor comes from: an entry of the listing of the
    directory of its media type. *)
Lemma scanResult_origin f files f' info :
  scanResult cwd f = (Return files, f') →
  info ∈ files →
  accessible f (kindDir cwd (type info)) = true ∧
  ∃ names file,
    entries f (kindDir cwd (type info)) = Return names ∧ file ∈ names ∧
    describe (statSize f) (kindDir cwd (type info)) (type info)
      (kindExtensions (type info)) file = Some info.
Proof.
  intros (images & videos & f1 & Himg & Hvid & ->)%scanResult_Return.
  intros [Hin|Hin]%elem_of_app.
  - destruct (scanDirectoryResult_origin _ _ _ _ _ _ _ Himg Hin)
      as (Hacc & names & file & Hent & Hfile & Hd).
    destruct (describe_Some _ _ _ _ _ _ Hd) as (_ & _ & _ & -> & _). eauto 10.
  - destruct (scanDirectoryResult_origin _ _ _ _ _ _ _ Hvid Hin)
      as (Hacc & names & file & Hent & Hfile & Hd).
    destruct (describe_Some _ _ _ _ _ _ Hd) as (_ & _ & _ & -> & _).
    destruct (scanDirectoryResult_other _ _ _ _ _ _ (VIDEOS_DIR cwd) Himg)
      as (Ha & He & Hs & _).
    { intros Heq. by apply (IMAGES_DIR_ne_VIDEOS_DIR cwd). }
    { apply VIDEOS_DIR_not_above_IMAGES_DIR. }
    simpl. rewrite <-Ha, <-He, <-Hs. eauto 10.
Qed.

(** Every descriptor that the scan returns stands for an entry of the
    listing of the directory of its media type: its path is the directory
    joined with the entry, the lowered extension of the entry is allowed for
    the type, its size is what stat gives for the path, and its MIME type is
    the table's for the extension and is of the kind of the type - never the
    default for unknown extensions.  Its path is not empty. *)
Theorem scanned_descriptors_are_well_formed m files m' :
  scanLocalMediaFiles cwd m = (Return files, m') →
  Forall (λ info,
    ∃ names file,
      entries (fs m) (kindDir cwd (type info)) = Return names ∧ file ∈ names ∧
      localFilePath info = Path.join (kindDir cwd (type info)) file ∧
      Str.toLowerCase (Path.extname file) ∈ kindExtensions (type info) ∧
      statSize (fs m) (localFilePath info) = Return (fileSize info) ∧
      mimeType info = getMimeType (Path.extname file) ∧
      String.prefix (kindPrefix (type info)) (mimeType info) = true ∧
      mimeType info ≠ "application/octet-stream" ∧
      truthy (Value (localFilePath info)) = true) files.
Proof.
  intros Hscan. apply Forall_forall. intros info Hin.
  destruct (scanResult_of_scan cwd _ _ _ Hscan) as (Hres & _).
  destruct (scanResult_origin _ _ _ _ Hres Hin) as (_ & names & file & Hent & Hfile & Hd).
  destruct (describe_Some _ _ _ _ _ _ Hd) as (Hext & Hstat & _ & _ & Hpath & Hmt).
  destruct (mime_of_kind _ _ Hext) as [Hmime _].
  rewrite getMimeType_toLowerCase in Hmime, Hmt. rewrite <-Hmt in Hmime.
  exists names, file. rewrite Hpath at 2.
  repeat split; try done.
  - intros Hoct. rewrite Hoct in Hmime. by destruct (type info).
  - rewrite Hpath. unfold Path.join. by destruct (kindDir cwd (type info)).
Qed.

(** The title of a scanned descriptor is the file name without its
    extension when the extension is written in lower case; when the
    extension has an upper-case letter, the title is the whole file name,
    extension included. *)
Theorem scanned_title_keeps_upper_case_extension m files m' :
  scanLocalMediaFiles cwd m = (Return files, m') →
  Forall (λ info,
    ∃ file stem,
      localFilePath info = Path.join (kindDir cwd (type info)) file ∧
      stem ≠ "" ∧ Path.extname file ≠ "" ∧
      file = stem +:+ Path.extname file ∧
      title info =
        if bool_decide (Path.extname file = Str.toLowerCase (Path.extname file))
        then stem else file) files.
Proof.
  intros Hscan. apply Forall_forall. intros info Hin.
  destruct (scanResult_of_scan cwd _ _ _ Hscan) as (Hres & _).
  destruct (scanResult_origin _ _ _ _ Hres Hin) as (_ & names & file & Hent & Hfile & Hd).
  destruct (describe_Some _ _ _ _ _ _ Hd) as (Hext & Hstat & Htitle & _ & Hpath & _).
  destruct (mime_of_kind _ _ Hext) as [_ Hne].
  assert (Hext' : Path.extname file ≠ "").
  { intros Hnil. by rewrite Hnil in Hne. }
  destruct (extname_suffix file Hext') as (stem & Hstem & Hsplit).
  exists file, stem. rewrite Htitle.
  repeat split; try done.
  by apply basename_lowered_extname.
Qed.

Lemma fromLastDot_None (s : string) :
  "."%char ∉ list_ascii_of_string s → Path.fromLastDot s = None.
Proof.
  induction s as [|x s IH]; [done|]; simpl.
  intros [Hx Hs]%not_elem_of_cons. rewrite IH by done.
  by rewrite bool_decide_eq_false_2.
Qed.

(** Entries without an extension are skipped without a stat: a name with no
    dot, and a name whose only dot comes first, such as [.gitkeep] or a file
    called [.jpg]. *)
Theorem entries_without_extension_are_skipped dirPath type name acc m :
  "."%char ∉ list_ascii_of_string name →
  scanEntry dirPath type (kindExtensions type) name acc m = (Return acc, m) ∧
  scanEntry dirPath type (kindExtensions type) (String "." name) acc m = (Return acc, m).
Proof.
  intros Hdot. apply fromLastDot_None in Hdot.
  assert (Hno : includes (kindExtensions type) "" = false) by (by destruct type).
  assert (He1 : Path.extname name = "").
  { unfold Path.extname. destruct name as [|x rest]; [done|].
    case_bool_decide; [done|]. simpl in Hdot.
    destruct (Path.fromLastDot rest); [done|]. done. }
  assert (He2 : Path.extname (String "." name) = "").
  { unfold Path.extname. case_bool_decide; [done|]. by rewrite Hdot. }
  unfold scanEntry. by rewrite He1, He2; simpl; rewrite Hno.
Qed.

Lemma paths_omap_describe f dirPath kind allowed names :
  List.map localFilePath (omap (describe (statSize f) dirPath kind allowed) names) =
  List.filter (λ p, negb (statFails f p))
    (List.map (Path.join dirPath) (matching allowed names)).
Proof.
  induction names as [|file names IH]; [done|].
  unfold matching in *; simpl in IH |- *. unfold describe at 1.
  destruct (includes allowed (Str.toLowerCase (Path.extname file))); simpl; [|exact IH].
  destruct (statSize f (Path.join dirPath file)) as [size|err] eqn:Hstat.
  - assert (statFails f (Path.join dirPath file) = false) as ->
      by (unfold statFails; by rewrite Hstat).
    simpl. f_equal. exact IH.
  - assert (statFails f (Path.join dirPath file) = true) as ->
      by (unfold statFails; by rewrite Hstat).
    simpl. exact IH.
Qed.

(** When both directories are there and can be listed, the scan returns the
    candidates whose stat succeeds - the images before the videos, each in
    the order of the listing - prints one error for each candidate whose
    stat fails, and leaves the file system as it was. *)
Theorem scan_returns_candidates_in_listing_order imgs vids m :
  accessible (fs m) (IMAGES_DIR cwd) = true →
  accessible (fs m) (VIDEOS_DIR cwd) = true →
  entries (fs m) (IMAGES_DIR cwd) = Return imgs →
  entries (fs m) (VIDEOS_DIR cwd) = Return vids →
  ∃ files m',
    scanLocalMediaFiles cwd m = (Return files, m') ∧
    List.map localFilePath files =
      List.filter (λ p, negb (statFails (fs m) p)) (candidates cwd imgs vids) ∧
    reports (List.length (List.filter (statFails (fs m)) (candidates cwd imgs vids))) m m' ∧
    fs m' = fs m.
Proof.
  intros Hai Hav Hei Hev.
  destruct (scanLocalMediaFiles_reports cwd imgs vids m Hai Hav Hei Hev) as [Hrep Hres].
  destruct (scanLocalMediaFiles_spec cwd m) as (m' & Hscan & Hf & _).
  rewrite Hres in Hscan, Hf. rewrite Hscan in Hrep. simpl in *.
  eexists _, m'. split; [exact Hscan|]. split; [|done].
  unfold candidates. by rewrite List.map_app, List.filter_app, !paths_omap_describe.
Qed.

Lemma scanDirectoryResult_paths f dirPath kind allowed files f' :
  scanDirectoryResult f dirPath kind allowed = (Return files, f') →
  (∀ names, entries f dirPath = Return names → NoDup names) →
  NoDup (List.map localFilePath files) ∧
  ∀ p, p ∈ List.map localFilePath files → ∃ file, p = Path.join dirPath file.
Proof.
  unfold scanDirectoryResult. intros Hscan Hnodup.
  destruct (accessible f dirPath).
  - destruct (entries f dirPath) as [names|]; [|done]. injection Hscan as <- <-.
    split; [by apply NoDup_paths_describe, Hnodup|].
    intros p (file & _ & ->)%elem_of_paths_describe. eauto.
  - destruct (mkdirError f dirPath); [done|]. injection Hscan as <- <-.
    split; [constructor|]. by intros p ?%elem_of_nil.
Qed.

(** The scanned paths are pairwise distinct whenever the directory listings
    have no repeated entry: the path is a key of the scan result. *)
Theorem scanned_paths_are_distinct m files m' :
  scanLocalMediaFiles cwd m = (Return files, m') →
  (∀ t names, entries (fs m) (kindDir cwd t) = Return names → NoDup names) →
  NoDup (List.map localFilePath files).
Proof.
  intros Hscan Hnodup.
  destruct (scanResult_of_scan cwd _ _ _ Hscan) as (Hres & _).
  apply scanResult_Return in Hres as (images & videos & f1 & Himg & Hvid & ->).
  destruct (scanDirectoryResult_other _ _ _ _ _ _ (VIDEOS_DIR cwd) Himg)
    as (_ & He & _).
  { intros Heq. by apply (IMAGES_DIR_ne_VIDEOS_DIR cwd). }
  { apply VIDEOS_DIR_not_above_IMAGES_DIR. }
  destruct (scanDirectoryResult_paths _ _ _ _ _ _ Himg) as [Hni Hpi];
    [by apply (Hnodup image)|].
  destruct (scanDirectoryResult_paths _ _ _ _ _ _ Hvid) as [Hnv Hpv].
  { intros names. rewrite He. by apply (Hnodup video). }
  rewrite List.map_app. apply NoDup_app. split; [done|]. split; [|done].
  intros p (a & ->)%Hpi (b & Heq)%Hpv.
  by apply join_IMAGES_ne_join_VIDEOS in Heq.
Qed.

(** The scan works on the file system only: it calls no store function and
    leaves the store, the result object and the lock flag as they are.  When
    both directories are there, it leaves the file system as it is, too. *)
Theorem scan_leaves_the_store_alone m :
  match scanLocalMediaFiles cwd m with
  | (_, m') =>
      store m' = store m ∧ result m' = result m ∧ isSyncing m' = isSyncing m ∧
      (∃ new, trace m' = (trace m ++ new)%list ∧
              Forall (λ e, isStoreCall e = false) new) ∧
      (accessible (fs m) (IMAGES_DIR cwd) = true →
       accessible (fs m) (VIDEOS_DIR cwd) = true →
       fs m' = fs m)
  end.
Proof.
  destruct (scanLocalMediaFiles_spec cwd m) as (m' & -> & Hf & Hs & Hi & Hr & He).
  repeat split; try done.
  intros Hai Hav. rewrite Hf. unfold scanResult, scanDirectoryResult.
  rewrite Hai. destruct (entries (fs m) (IMAGES_DIR cwd));
    rewrite Hav; by destruct (entries (fs m) (VIDEOS_DIR cwd)).
Qed.

(** Scanning again, with no change to the file system in between, returns
    the same descriptors when the first scan returned and throws again when
    the first scan threw; it changes the file system no further, also when
    the first scan created the directories. *)
Theorem scanning_again_gives_the_same m o m1 m2 :
  scanLocalMediaFiles cwd m = (o, m1) →
  fs m2 = fs m1 →
  match o with
  | Return files => (scanLocalMediaFiles cwd m2).1 = Return files
  | Throw _ => ∃ err, (scanLocalMediaFiles cwd m2).1 = Throw err
  end ∧
  fs (scanLocalMediaFiles cwd m2).2 = fs m1.
Proof.
  intros Hscan Hfs.
  destruct (scanLocalMediaFiles_spec cwd m) as (m1' & Hscan' & Hf & _).
  rewrite Hscan in Hscan'. injection Hscan' as Ho Hm. subst m1'.
  destruct (scanResult cwd (fs m)) as [o' f1] eqn:Hres. simpl in *. subst o' f1.
  apply scanResult_again in Hres. rewrite <-Hfs in Hres.
  destruct (scanLocalMediaFiles_spec cwd m2) as (m3 & -> & Hf3 & _).
  rewrite Hres in *. simpl. split; [|by rewrite Hf3].
  destruct o; by eauto.
Qed.

(** The scan throws only for a directory: exactly when one of the two
    media directories is there and cannot be listed, or is missing and
    cannot be created.  A file that cannot be stat'ed never makes it
    throw. *)
Theorem scan_throws_only_when_a_directory_fails m :
  (∃ err m', scanLocalMediaFiles cwd m = (Throw err, m')) ↔
  dirFails (fs m) (IMAGES_DIR cwd) = true ∨ dirFails (fs m) (VIDEOS_DIR cwd) = true.
Proof.
  destruct (scanLocalMediaFiles_spec cwd m) as (m1 & Hscan & _).
  assert (Hres : (∃ err, (scanResult cwd (fs m)).1 = Throw err) ↔
                 dirFails (fs m) (IMAGES_DIR cwd) = true ∨
                 dirFails (fs m) (VIDEOS_DIR cwd) = true).
  { unfold scanResult.
    destruct (scanDirectoryResult (fs m) (IMAGES_DIR cwd) image IMAGE_EXTENSIONS)
      as [oi f1] eqn:Himg.
    destruct (scanDirectoryResult_other _ _ _ _ _ _ (VIDEOS_DIR cwd) Himg)
      as (Ha & He & _ & Hm).
    { intros Heq. by apply (IMAGES_DIR_ne_VIDEOS_DIR cwd). }
    { apply VIDEOS_DIR_not_above_IMAGES_DIR. }
    assert (Hv : dirFails f1 (VIDEOS_DIR cwd) = dirFails (fs m) (VIDEOS_DIR cwd)).
    { unfold dirFails. by rewrite Ha, He, Hm. }
    assert (Hi : dirFails (fs m) (IMAGES_DIR cwd) = true ↔ ∃ err, oi = Throw err).
    { revert Himg. unfold scanDirectoryResult, dirFails.
      destruct (accessible (fs m) (IMAGES_DIR cwd)).
      - destruct (entries (fs m) (IMAGES_DIR cwd)); intros [= <- _];
          split; try done; [by intros [? ?]|by eauto].
      - destruct (mkdirError (fs m) (IMAGES_DIR cwd)); intros [= <- _];
          split; try done; [by eauto|by intros [? ?]]. }
    destruct (scanDirectoryResult f1 (VIDEOS_DIR cwd) video VIDEO_EXTENSIONS)
      as [ov f2] eqn:Hvid.
    assert (Hv' : dirFails f1 (VIDEOS_DIR cwd) = true ↔ ∃ err, ov = Throw err).
    { revert Hvid. unfold scanDirectoryResult, dirFails.
      destruct (accessible f1 (VIDEOS_DIR cwd)).
      - destruct (entries f1 (VIDEOS_DIR cwd)); intros [= <- _];
          split; try done; [by intros [? ?]|by eauto].
      - destruct (mkdirError f1 (VIDEOS_DIR cwd)); intros [= <- _];
          split; try done; [by eauto|by intros [? ?]]. }
    rewrite Hv in Hv'. rewrite Hi, Hv'. simpl.
    destruct oi as [images|ei], ov as [videos|ev]; split; try (by eauto).
    - by intros [? ?].
    - by intros [[? ?]|[? ?]]. }
  rewrite <-Hres, Hscan. split.
  - intros (err & m' & [= -> _]). by eauto.
  - intros [err ->]. by eauto.
Qed.

End ScannerProperties.

(** * The sync engine, for any store *)

Section EngineProperties.
Context {S : Type} `{!IStorage S}.
Variable cwd : string.

Implicit Types (m : Machine S).

(** When the scan throws, the run returns zero counts and the one report
    of the failure, which it prints; it calls no store function and leaves
    the store as it is. *)
Theorem scan_failure_ends_the_run m err m1 :
  scanLocalMediaFiles cwd (startRun m) = (Throw err, m1) →
  ∃ m' new,
    syncLocalMediaFiles cwd m =
      (Return {| added := 0; removed := 0; unchanged := 0;
                 errors := ["Sync failed: " +:+ err] |}, m') ∧
    store m' = store m ∧
    trace m' = (trace m ++ new)%list ∧
    Forall (λ e, isStoreCall e = false) new ∧
    ConsoleError ("Sync failed: " +:+ err) ∈ new.
Proof.
  intros Hscan.
  destruct (scanLocalMediaFiles_spec cwd (startRun m)) as (m1' & Hscan' & _ & Hs & _ & Hr & He).
  rewrite Hscan in Hscan'. assert (m1' = m1) as -> by congruence. clear Hscan'.
  rewrite syncLocalMediaFiles_unfold. unfold syncBody, bind at 1. rewrite Hscan.
  destruct He as (new & Htrace & Hnew).
  eexists _, (ConsoleLog "Starting local media sync..." :: new
              ++ [ConsoleError ("Sync failed: " +:+ err)])%list.
  split; [|split; [|split; [|split]]].
  - f_equal. simpl. by rewrite Hr.
  - done.
  - simpl in *. by rewrite Htrace, <-!app_assoc.
  - constructor; [done|]. apply Forall_app. by split; [|repeat constructor].
  - apply list_elem_of_further, elem_of_app. right. apply list_elem_of_here.
Qed.

(** When the listing of the store throws, the run ends before the first
    pass: the scanned files are neither looked up nor created, nothing is
    deleted, and the result has zero counts and the one report. *)
Theorem listing_failure_ends_the_run_before_the_passes m files m1 err s2 :
  scanLocalMediaFiles cwd (startRun m) = (Return files, m1) →
  getAllContent (store m1) = (Throw err, s2) →
  ∃ m' new,
    syncLocalMediaFiles cwd m =
      (Return {| added := 0; removed := 0; unchanged := 0;
                 errors := ["Sync failed: " +:+ err] |}, m') ∧
    store m' = s2 ∧
    trace m' = (trace m ++ new)%list ∧
    List.filter isStoreCall new = [GetAllContent].
Proof.
  intros Hscan Hall.
  destruct (scanLocalMediaFiles_spec cwd (startRun m)) as (m1' & Hscan' & _ & Hs & _ & Hr & He).
  rewrite Hscan in Hscan'. assert (m1' = m1) as -> by congruence. clear Hscan'.
  rewrite syncLocalMediaFiles_unfold. unfold syncBody, bind at 1. rewrite Hscan.
  unfold storageGetAllContent, bind at 1. rewrite callStore_spec, Hall.
  destruct He as (new & Htrace & Hnew).
  eexists _, (ConsoleLog "Starting local media sync..." :: new
              ++ [GetAllContent; ConsoleError ("Sync failed: " +:+ err)])%list.
  split; [|split; [|split]].
  - f_equal. simpl. by rewrite Hr.
  - done.
  - simpl in *. by rewrite Htrace, <-!app_assoc.
  - simpl. rewrite List.filter_app; simpl.
    rewrite filter_none; [done|].
    intros e He. by apply (proj1 (Forall_forall _ _) Hnew).
Qed.

Lemma additionStep_calls info m :
  ∃ new, trace (additionStep info m).2 = (trace m ++ new)%list ∧
         List.filter isLookup new = [GetContentByLocalPath (localFilePath info)] ∧
         List.filter isDelete new = [].
Proof.
  unfold additionStep, tryCatch, storageGetContentByLocalPath, bind at 1.
  rewrite callStore_spec.
  destruct (getContentByLocalPath (localFilePath info) (store m)) as [[[c|]|err] s1];
    simpl.
  - by eexists [_].
  - unfold storageCreateContent, bind at 1. rewrite callStore_spec; simpl.
    destruct (createContent (convertToInsertContent info) s1) as [[c|err] s2]; simpl.
    + eexists [_; _; _]. by rewrite <-!app_assoc.
    + eexists [_; _; _]. by rewrite <-!app_assoc.
  - eexists [_; _]. by rewrite <-!app_assoc.
Qed.

(** The addition pass is best effort, whatever the store does: it never
    throws, looks up every scanned file once and in scan order, deletes
    nothing, and accounts for each file by adding one to exactly one of
    [added], [unchanged] and the number of [errors]. *)
Theorem addition_pass_accounts_for_every_file files m :
  ∃ m' new,
    forOf files additionStep m = (Return tt, m') ∧
    added (result m') + unchanged (result m') + List.length (errors (result m'))
      = added (result m) + unchanged (result m) + List.length (errors (result m))
        + List.length files ∧
    removed (result m') = removed (result m) ∧
    fs m' = fs m ∧ isSyncing m' = isSyncing m ∧
    trace m' = (trace m ++ new)%list ∧
    List.filter isLookup new =
      List.map (λ info, GetContentByLocalPath (localFilePath info)) files ∧
    List.filter isDelete new = [].
Proof.
  revert m. induction files as [|info files IH]; intros m.
  - exists m, []. simpl. rewrite app_nil_r. repeat split; lia.
  - simpl forOf. unfold bind.
    destruct (additionStep_calls info m) as (n1 & Ht1 & Hl1 & Hd1).
    destruct (additionStep_spec info m) as (m1 & Heq & Hf1 & Hi1 & Hr1 & Hc1 & _).
    rewrite Heq in *. simpl in Ht1.
    destruct (IH m1) as (m2 & n2 & -> & Hc2 & Hr2 & Hf2 & Hi2 & Ht2 & Hl2 & Hd2).
    exists m2, (n1 ++ n2)%list. simpl.
    rewrite !List.filter_app, Hl1, Hl2, Hd1, Hd2, Ht2, Ht1, <-app_assoc.
    repeat split; try congruence; lia.
Qed.

(** [syncWithLock] never throws.  It returns [null] exactly when the flag
    was set; otherwise it returns the result of the sync run that starts
    with the flag set, and the state that run leaves, with the flag
    cleared. *)
Theorem syncWithLock_returns_null_only_when_syncing m :
  ∃ o m',
    syncWithLock cwd m = (Return o, m') ∧
    (o = None ↔ isSyncing m = true) ∧
    (isSyncing m = false →
     ∃ r mr, syncLocalMediaFiles cwd (acquire m) = (Return r, mr) ∧
             o = Some r ∧ m' = release mr).
Proof.
  unfold syncWithLock. rewrite runExclusive_unfold.
  destruct (isSyncing m) eqn:Hbusy.
  - eexists _, _. split; [reflexivity|]. split; [done|done].
  - destruct (syncLocalMediaFiles_returns cwd (acquire m)) as (mr & Hrun).
    rewrite Hrun. eexists _, _. split; [reflexivity|]. split; [done|].
    intros _. eauto.
Qed.

(** A sync run never touches the lock flag: from its first step to its
    last the flag is what [syncWithLock] set. *)
Theorem syncLocalMediaFiles_keeps_the_flag m :
  isSyncing (syncLocalMediaFiles cwd m).2 = isSyncing m.
Proof.
  rewrite syncLocalMediaFiles_unfold.
  pose proof (syncBody_cases cwd (startRun m)) as Hcases.
  destruct (scanResult cwd (fs (startRun m))) as [[files|err] f1].
  - destruct (getAllContent (store (startRun m))) as [[all|err] s2].
    + destruct Hcases as (o & mb & -> & _ & Hi & _). by destruct o as [[]|].
    + by destruct Hcases as (mb & -> & _ & _ & _ & Hi & _).
  - by destruct Hcases as (mb & -> & _ & _ & _ & Hi & _).
Qed.

End EngineProperties.

(** * Invariants of a sync run *)

Section RunInvariant.
Context {S : Type} `{!IStorage S}.
Variable cwd : string.

Implicit Types (m : Machine S).

Lemma forOf_invariant {A} (body : A → M (S:=S) unit) (Inv : Machine S → Prop)
    (xs : list A) :
  (∀ x m, Inv m → Inv (body x m).2) →
  ∀ m, Inv m → Inv (forOf xs body m).2.
Proof.
  intros Hbody. induction xs as [|x xs IH]; intros m Hm; [done|].
  simpl. unfold bind. pose proof (Hbody x m Hm) as H1.
  destruct (body x m) as [[[]|err] m1]; simpl in *; [|done]. by apply IH.
Qed.

(** The invariant rule of a sync run: what holds when the outer [try] is
    entered and is kept by the scan, by the listing, by each step of the two
    passes, by a console line and by the outer handler, holds when the run
    returns. *)
Lemma syncLocalMediaFiles_invariant (Inv : Machine S → Prop) :
  (∀ m, Inv m → Inv (scanLocalMediaFiles cwd m).2) →
  (∀ m, Inv m → Inv (storageGetAllContent m).2) →
  (∀ info m, Inv m → Inv (additionStep info m).2) →
  (∀ scanned c m, Inv m → Inv (removalStep scanned c m).2) →
  (∀ msg m, Inv m → Inv (consoleLog msg m).2) →
  (∀ err m, Inv m → Inv (syncFailed err m)) →
  ∀ m, Inv (startRun m) → Inv (syncLocalMediaFiles cwd m).2.
Proof.
  intros Hscan Hall Hadd Hrem Hlog Hfail m Hm.
  rewrite syncLocalMediaFiles_unfold.
  assert (Hbody : Inv (syncBody cwd (startRun m)).2).
  { unfold syncBody, bind at 1.
    pose proof (Hscan _ Hm) as H1.
    destruct (scanLocalMediaFiles cwd (startRun m)) as [[files|err] m1];
      cbn [snd] in *; [|done].
    unfold bind at 1. pose proof (Hall _ H1) as H2.
    destruct (storageGetAllContent m1) as [[all|err] m2]; cbn [snd] in *; [|done].
    unfold bind at 1.
    pose proof (forOf_invariant additionStep Inv files Hadd _ H2) as H3.
    destruct (forOf files additionStep m2) as [[[]|err] m3]; cbn [snd] in *; [|done].
    unfold bind at 1.
    pose proof (forOf_invariant _ Inv (List.filter (λ c, truthy (c_localFilePath c)) all)
                  (Hrem (list_to_set (List.map localFilePath files))) _ H3) as H4.
    destruct (forOf _ _ m3) as [[[]|err] m4]; cbn [snd] in *; [|done].
    unfold bind, getResult. apply Hlog, H4. }
  destruct (syncBody cwd (startRun m)) as [[[]|err] mb]; cbn [snd] in *; [done|].
  by apply Hfail.
Qed.

(** The trace of a run extends the trace it started with. *)
Lemma syncLocalMediaFiles_trace m :
  ∃ new, trace (syncLocalMediaFiles cwd m).2 = (trace m ++ new)%list.
Proof.
  assert (H : extends (λ _, True) m (syncLocalMediaFiles cwd m).2).
  { destruct (syncLocalMediaFiles_via_body cwd m) as (o & mb & m' & Hbody & Hrun & Hm' & Hext).
    rewrite Hrun. apply Hext; [done|].
    pose proof (syncBody_cases cwd (startRun m)) as Hcases.
    destruct (scanResult cwd (fs (startRun m))) as [[files|err] f1].
    - destruct (getAllContent (store (startRun m))) as [[all|err] s2].
      + destruct Hcases as (o' & mb' & Hbody' & _ & _ & He & _).
        rewrite Hbody in Hbody'. assert (mb' = mb) as -> by congruence.
        eapply extends_mono; [|exact He]. done.
      + destruct Hcases as (mb' & Hbody' & _ & _ & _ & _ & He).
        rewrite Hbody in Hbody'. assert (mb' = mb) as -> by congruence.
        eapply extends_mono; [|exact He]. done.
    - destruct Hcases as (mb' & Hbody' & _ & _ & _ & _ & He).
      rewrite Hbody in Hbody'. assert (mb' = mb) as -> by congruence.
      eapply extends_mono; [|exact He]. done. }
  destruct H as (new & Hnew & _). eauto.
Qed.

End RunInvariant.

(** * The sync engine over the reference store *)

Section MemProperties.
Variable cwd : string.

Implicit Types (m : Machine MemStorage).

Lemma scan_keeps_store m : store (scanLocalMediaFiles cwd m).2 = store m.
Proof. by destruct (scanLocalMediaFiles_spec cwd m) as (m' & -> & _ & Hs & _). Qed.

Lemma omap_valuePath_None p (rs : list Content) :
  List.find (hasPath p) rs = None → p ∉ omap valuePath rs.
Proof.
  intros Hfind (c & Hin & Hp)%list_elem_of_omap.
  apply list_elem_of_In in Hin.
  pose proof (List.find_none _ _ Hfind _ Hin) as Hno.
  unfold hasPath in Hno. apply bool_decide_eq_false in Hno. apply Hno.
  unfold valuePath in Hp. by destruct (c_localFilePath c); simplify_eq.
Qed.

Lemma elem_of_omap_filter {A B} (f : A → option B) (Q : A → bool) (l : list A) y :
  y ∈ omap f (List.filter Q l) → y ∈ omap f l.
Proof.
  intros (x & Hin & Hx)%list_elem_of_omap. apply list_elem_of_omap.
  exists x. split; [|done].
  by apply list_elem_of_In, List.filter_In in Hin as [?%list_elem_of_In _].
Qed.

Lemma NoDup_omap_filter {A B} (f : A → option B) (Q : A → bool) (l : list A) :
  NoDup (omap f l) → NoDup (omap f (List.filter Q l)).
Proof.
  induction l as [|x l IH]; [done|]; simpl.
  destruct (f x) as [y|] eqn:Hy.
  - intros [Hnotin Hnodup]%NoDup_cons. destruct (Q x); simpl; [|by apply IH].
    rewrite Hy. apply NoDup_cons. split; [|by apply IH].
    intros Hin. by apply Hnotin, (elem_of_omap_filter f Q).
  - intros Hnodup. destruct (Q x); simpl; [|by apply IH].
    rewrite Hy. by apply IH.
Qed.

(** A run keeps local paths unique: when no two records of the store have
    the same local path before a run, none have after it - a record is
    created only for a path that the lookup did not find. *)
Theorem run_keeps_local_paths_unique m :
  uniquePaths (records (store m)) →
  uniquePaths (records (store (syncLocalMediaFiles cwd m).2)).
Proof.
  intros Huniq.
  apply (syncLocalMediaFiles_invariant cwd
           (λ m0 : Machine MemStorage, uniquePaths (records (store m0)))).
  - intros m0. by rewrite scan_keeps_store.
  - intros m0. unfold storageGetAllContent. by rewrite callStore_spec.
  - intros info m0 H0. rewrite additionStep_mem.
    destruct (List.find _ _) eqn:Hfind; [done|]. simpl.
    unfold uniquePaths in *. rewrite omap_app. simpl.
    apply NoDup_app. split; [done|]. split; [|apply NoDup_singleton].
    intros p Hp Heq%list_elem_of_singleton. subst p.
    by apply (omap_valuePath_None _ _ Hfind).
  - intros scanned c m0 H0. rewrite removalStep_mem.
    destruct (gone _ _ _); simpl.
    + by apply NoDup_omap_filter.
    + by destruct (stillAccessible _ _ _).
  - done.
  - done.
  - done.
Qed.

Lemma filter_not_store_call (P : Event → bool) (new : list Event) :
  (∀ e, P e = true → isStoreCall e = true) →
  Forall (λ e, isStoreCall e = false) new → List.filter P new = [].
Proof.
  intros HP Hnew. apply filter_none. intros e He.
  apply (proj1 (Forall_forall _ _) Hnew) in He.
  destruct (P e) eqn:HPe; [|done]. apply HP in HPe. congruence.
Qed.

(** Over a store whose calls succeed, the counters of a run are the numbers
    of the store mutations it issued: [added] is the number of
    [createContent] calls and [removed] the number of
    [deleteContentByLocalPath] calls. *)
Theorem counters_count_the_store_mutations m :
  ∃ r m' new,
    syncLocalMediaFiles cwd m = (Return r, m') ∧
    trace m' = (trace m ++ new)%list ∧
    added r = List.length (List.filter isCreate new) ∧
    removed r = List.length (List.filter isDelete new).
Proof.
  destruct (syncLocalMediaFiles_returns cwd m) as (m' & Hrun).
  destruct (syncLocalMediaFiles_trace cwd m) as (new & Htrace).
  rewrite Hrun in Htrace. simpl in Htrace.
  exists (result m'), m', new. split; [done|]. split; [done|].
  set (k1 := List.length (List.filter isCreate (trace m))).
  set (k2 := List.length (List.filter isDelete (trace m))).
  assert (Hinv :
    (λ m0 : Machine MemStorage,
       List.length (List.filter isCreate (trace m0)) = added (result m0) + k1 ∧
       List.length (List.filter isDelete (trace m0)) = removed (result m0) + k2)
      (syncLocalMediaFiles cwd m).2).
  { apply (syncLocalMediaFiles_invariant cwd).
    - intros m0 [H1 H2].
      destruct (scanLocalMediaFiles_spec cwd m0) as (m1 & -> & _ & _ & _ & Hr & new0 & Ht & Hn).
      simpl. rewrite Ht, Hr, !List.filter_app, !length_app.
      rewrite (filter_not_store_call isCreate new0), (filter_not_store_call isDelete new0);
        [simpl; lia|by intros []|done|by intros []|done].
    - intros m0 [H1 H2]. unfold storageGetAllContent. rewrite callStore_spec; simpl.
      rewrite !List.filter_app, !length_app; simpl. lia.
    - intros info m0 [H1 H2]. rewrite additionStep_mem.
      destruct (List.find _ _); simpl;
        rewrite !List.filter_app, !length_app; simpl; lia.
    - intros scanned c m0 [H1 H2]. rewrite removalStep_mem.
      destruct (gone _ _ _); [|destruct (stillAccessible _ _ _)]; simpl;
        rewrite ?List.filter_app, ?length_app; simpl; lia.
    - intros msg m0 [H1 H2]. simpl.
      rewrite !List.filter_app, !length_app; simpl. lia.
    - intros err m0 [H1 H2]. simpl.
      rewrite !List.filter_app, !length_app; simpl. lia.
    - simpl. rewrite !List.filter_app, !length_app; simpl. lia. }
  rewrite Hrun in Hinv. simpl in Hinv. destruct Hinv as [H1 H2].
  rewrite Htrace, List.filter_app, length_app in H1, H2. subst k1 k2. lia.
Qed.

Lemma scanDirectoryResult_accessible_mono f dirPath kind allowed o f' p :
  scanDirectoryResult f dirPath kind allowed = (o, f') →
  accessible f p = true → accessible f' p = true.
Proof.
  intros Hscan Hacc.
  destruct (scanDirectoryResult_fs _ _ _ _ _ _ Hscan) as [->|(-> & _ & _)]; [done|].
  simpl. by rewrite Hacc, orb_true_r.
Qed.

Lemma scan_accessible_mono m p :
  accessible (fs m) p = true →
  accessible (fs (scanLocalMediaFiles cwd m).2) p = true.
Proof.
  intros Hacc.
  destruct (scanLocalMediaFiles_spec cwd m) as (m' & -> & Hfs & _).
  simpl. rewrite Hfs. unfold scanResult.
  destruct (scanDirectoryResult (fs m) (IMAGES_DIR cwd) image IMAGE_EXTENSIONS)
    as [oi f1] eqn:Himg.
  pose proof (scanDirectoryResult_accessible_mono _ _ _ _ _ _ p Himg Hacc) as H1.
  destruct (scanDirectoryResult f1 (VIDEOS_DIR cwd) video VIDEO_EXTENSIONS)
    as [ov f2] eqn:Hvid; simpl.
  by apply (scanDirectoryResult_accessible_mono _ _ _ _ _ _ p Hvid).
Qed.

(** A run never removes a record that has no local path - a record of
    remote content, with a null or empty path - nor a record whose file is
    accessible, scanned or not. *)
Theorem run_keeps_records_without_missing_file m c :
  c ∈ records (store m) →
  truthy (c_localFilePath c) = false ∨
    accessible (fs m) (pathOf (c_localFilePath c)) = true →
  c ∈ records (store (syncLocalMediaFiles cwd m).2).
Proof.
  intros Hin Hkeep.
  apply (syncLocalMediaFiles_invariant cwd
           (λ m0 : Machine MemStorage,
              c ∈ records (store m0) ∧
              (truthy (c_localFilePath c) = false ∨
               accessible (fs m0) (pathOf (c_localFilePath c)) = true)));
    [..|done].
  - intros m0 [H1 H2]. rewrite scan_keeps_store. split; [done|].
    destruct H2 as [?|?]; [by left|right]. by apply scan_accessible_mono.
  - intros m0. unfold storageGetAllContent. by rewrite callStore_spec.
  - intros info m0 [H1 H2]. rewrite additionStep_mem.
    destruct (List.find _ _); simpl; [done|]. split; [|done].
    apply elem_of_app. by left.
  - intros scanned b m0 [H1 H2]. rewrite removalStep_mem.
    destruct (gone (fs m0) scanned b) eqn:Hgone; simpl;
      [|by destruct (stillAccessible _ _ _)].
    split; [|done].
    apply list_elem_of_In, List.filter_In. split; [by apply list_elem_of_In|].
    apply negb_true_iff, bool_decide_eq_false. intros Hpath.
    destruct (gone_spec _ _ _ Hgone) as (Hv & _ & Hacc).
    rewrite Hpath in H2. simpl in H2.
    destruct H2 as [Hfalsy|Hacc']; [|congruence].
    apply gone_truthy in Hgone. rewrite Hv in Hgone. simpl in *. congruence.
  - done.
  - done.
Qed.

Lemma mirrors_contentOfInsert id info :
  duration info = None →
  mirrors info (contentOfInsert id (convertToInsertContent info)).
Proof. intros Hd. unfold mirrors; simpl. by rewrite Hd. Qed.

(** The records after the addition pass: those of before, and records
    converted from one of the files. *)
Lemma additionPass_created files :
  ∀ m,
  ∃ m', forOf files additionStep m = (Return tt, m') ∧
        ∀ c, c ∈ records (store m') →
             c ∈ records (store m) ∨
             ∃ info id, info ∈ files ∧
                        c = contentOfInsert id (convertToInsertContent info).
Proof.
  induction files as [|info files IH]; intros m; simpl.
  - exists m. split; [done|]. by left.
  - unfold bind. rewrite additionStep_mem.
    match goal with |- ∃ _, forOf _ _ ?x = _ ∧ _ => destruct (IH x) as (m' & -> & Hrec) end.
    exists m'. split; [done|]. intros c Hc.
    destruct (Hrec c Hc) as [Hold|(info' & id & Hin & ->)].
    + destruct (List.find _ _); simpl in Hold; [by left|].
      apply elem_of_app in Hold as [?|Heq%list_elem_of_singleton]; [by left|].
      subst c. right. eexists info, _. split; [apply list_elem_of_here|done].
    + right. exists info', id. split; [by apply list_elem_of_further|done].
Qed.

Lemma syncBody_mem_records m files f1 :
  scanResult cwd (fs m) = (Return files, f1) →
  ∃ mb,
    syncBody cwd m = (Return tt, mb) ∧
    ∀ c, c ∈ records (store mb) →
         c ∈ records (store m) ∨ ∃ info, info ∈ files ∧ mirrors info c.
Proof.
  intros Hres.
  pose proof (scanResult_duration _ _ _ _ Hres) as Hdur.
  destruct (scanLocalMediaFiles_spec cwd m) as (m1 & Hscan & Hf1 & Hs1 & _).
  rewrite Hres in Hscan; simpl in Hscan.
  unfold syncBody, bind at 1. rewrite Hscan.
  unfold storageGetAllContent, bind at 1. rewrite callStore_spec.
  cbn [getAllContent MemStorage_IStorage fst snd]. unfold bind at 1.
  fold (scannedPaths files).
  set (listed := List.filter (λ c, truthy (c_localFilePath c)) (records (store m1))).
  match goal with |- ∃ _, match forOf files additionStep ?x with _ => _ end = _ ∧ _ =>
    set (m0 := x)
  end.
  destruct (additionPass_created files m0) as (m2 & Hadd & Hrec2).
  rewrite Hadd. unfold bind at 1.
  destruct (removalPass_mem (scannedPaths files) listed m2)
    as (m3 & Hrem & _ & Hrec3 & _).
  rewrite Hrem. unfold bind, getResult, consoleLog. rewrite emit_spec.
  eexists; split; [reflexivity|]; cbn [fs store isSyncing result trace].
  intros c [Hc _]%Hrec3.
  destruct (Hrec2 c Hc) as [Hold|(info & id & Hin & ->)].
  - left. subst m0. simpl in Hold. by rewrite <-Hs1.
  - right. exists info. split; [done|]. apply mirrors_contentOfInsert.
    by apply (proj1 (Forall_forall _ _) Hdur).
Qed.

Lemma sync_of_body_mem m files m1 :
  scanLocalMediaFiles cwd m = (Return files, m1) →
  ∃ mb, syncBody cwd (startRun m) = (Return tt, mb) ∧
        syncLocalMediaFiles cwd m = (Return (result mb), mb) ∧
        scanResult cwd (fs (startRun m)) = (Return files, fs m1).
Proof.
  intros Hscan. apply scanResult_of_scan in Hscan as (Hres & _).
  destruct (syncBody_mem cwd (startRun m) files (fs m1) Hres) as (mb & Hbody & _).
  exists mb. split; [done|]. split; [|done].
  rewrite syncLocalMediaFiles_unfold. by rewrite Hbody.
Qed.

(** When the scan succeeds, a run over the reference store reports no
    error and leaves the store in step with the files: every scanned file
    has a record, and every record that has a local path points into the
    scan or to a file that is still accessible. *)
Theorem run_brings_store_in_step_with_files m files m1 :
  scanLocalMediaFiles cwd m = (Return files, m1) →
  ∃ r m',
    syncLocalMediaFiles cwd m = (Return r, m') ∧
    errors r = [] ∧ fs m' = fs m1 ∧
    (∀ info, info ∈ files →
       ∃ c, c ∈ records (store m') ∧ c_localFilePath c = Value (localFilePath info)) ∧
    (∀ c, c ∈ records (store m') → truthy (c_localFilePath c) = true →
       pathOf (c_localFilePath c) ∈ List.map localFilePath files ∨
       accessible (fs m') (pathOf (c_localFilePath c)) = true).
Proof.
  intros Hscan.
  destruct (sync_of_body_mem m files m1 Hscan) as (mb & Hbody & Hrun & Hres).
  destruct (syncBody_mem cwd (startRun m) files (fs m1) Hres)
    as (mb' & Hbody' & Hfs & _ & Herr & _ & _ & Hall & Hnogone & _).
  rewrite Hbody in Hbody'. assert (mb' = mb) as -> by congruence.
  exists (result mb), mb. split; [done|]. split; [done|]. split; [done|].
  split; [done|]. intros c Hc Htruthy.
  specialize (Hnogone c Hc). unfold gone, outsideScan in Hnogone.
  rewrite Htruthy in Hnogone. rewrite Hfs. simpl in Hnogone.
  case_bool_decide as Hin; simpl in Hnogone.
  - left. by apply elem_of_list_to_set in Hin.
  - right. by apply negb_false_iff.
Qed.

(** When the scan succeeds, every record of the reference store after a
    run was there before the run or carries the fields of a scanned file:
    title, type, path, MIME type and size of the file, no duration and no
    Drive id or link. *)
Theorem new_records_mirror_scanned_files m files m1 :
  scanLocalMediaFiles cwd m = (Return files, m1) →
  ∃ r m',
    syncLocalMediaFiles cwd m = (Return r, m') ∧
    ∀ c, c ∈ records (store m') →
         c ∈ records (store m) ∨ ∃ info, info ∈ files ∧ mirrors info c.
Proof.
  intros Hscan.
  destruct (sync_of_body_mem m files m1 Hscan) as (mb & Hbody & Hrun & Hres).
  destruct (syncBody_mem_records (startRun m) files (fs m1) Hres) as (mb' & Hbody' & Hrec).
  rewrite Hbody in Hbody'. assert (mb' = mb) as -> by congruence.
  by exists (result mb), mb.
Qed.

End MemProperties.

(** * Concrete instances *)

(** A concrete instance: the scan of [mixedFs]. *)
Lemma scanned_descriptors_are_well_formed_witness :
  let m := initialMachine mixedFs emptyStore in
  Forall (λ info,
    ∃ names file,
      entries (fs m) (kindDir "/app" (type info)) = Return names ∧ file ∈ names ∧
      localFilePath info = Path.join (kindDir "/app" (type info)) file ∧
      Str.toLowerCase (Path.extname file) ∈ kindExtensions (type info) ∧
      statSize (fs m) (localFilePath info) = Return (fileSize info) ∧
      mimeType info = getMimeType (Path.extname file) ∧
      String.prefix (kindPrefix (type info)) (mimeType info) = true ∧
      mimeType info ≠ "application/octet-stream" ∧
      truthy (Value (localFilePath info)) = true) mixedFiles.
Proof.
  apply (scanned_descriptors_are_well_formed "/app"
           (initialMachine mixedFs emptyStore) mixedFiles
           (scanLocalMediaFiles "/app" (initialMachine mixedFs emptyStore)).2).
  vm_compute. reflexivity.
Defined.

(** A concrete instance: [a.jpg] gets the title [a], [B.PNG] keeps its
    whole name. *)
Lemma scanned_title_keeps_upper_case_extension_witness :
  Forall (λ info,
    ∃ file stem,
      localFilePath info = Path.join (kindDir "/app" (type info)) file ∧
      stem ≠ "" ∧ Path.extname file ≠ "" ∧
      file = stem +:+ Path.extname file ∧
      title info =
        if bool_decide (Path.extname file = Str.toLowerCase (Path.extname file))
        then stem else file) mixedFiles.
Proof.
  apply (scanned_title_keeps_upper_case_extension "/app"
           (initialMachine mixedFs emptyStore) mixedFiles
           (scanLocalMediaFiles "/app" (initialMachine mixedFs emptyStore)).2).
  vm_compute. reflexivity.
Defined.

(** A concrete instance: [gitkeep] and [.gitkeep]. *)
Lemma entries_without_extension_are_skipped_witness :
  let m := initialMachine mixedFs emptyStore in
  scanEntry "/app/server/media/images" image IMAGE_EXTENSIONS "gitkeep" [] m
    = (Return [], m) ∧
  scanEntry "/app/server/media/images" image IMAGE_EXTENSIONS ".gitkeep" [] m
    = (Return [], m).
Proof.
  apply (entries_without_extension_are_skipped "/app/server/media/images" image
           "gitkeep" [] (initialMachine mixedFs emptyStore)).
  apply (bool_decide_unpack _). vm_compute. exact I.
Defined.

(** A concrete instance: the three images of [deniedFs], the last of which
    cannot be stat'ed. *)
Lemma scan_returns_candidates_in_listing_order_witness :
  let m := initialMachine deniedFs emptyStore in
  ∃ files m',
    scanLocalMediaFiles "/app" m = (Return files, m') ∧
    List.map localFilePath files =
      List.filter (λ p, negb (statFails (fs m) p))
        (candidates "/app" ["a.jpg"; "b.png"; "c.jpeg"] []) ∧
    reports (List.length (List.filter (statFails (fs m))
                            (candidates "/app" ["a.jpg"; "b.png"; "c.jpeg"] []))) m m' ∧
    fs m' = fs m.
Proof.
  apply (scan_returns_candidates_in_listing_order "/app"
           ["a.jpg"; "b.png"; "c.jpeg"] [] (initialMachine deniedFs emptyStore)).
  - vm_compute. reflexivity.
  - vm_compute. reflexivity.
  - vm_compute. reflexivity.
  - vm_compute. reflexivity.
Defined.

(** A concrete instance: the listings of [mixedFs] have no repeated
    entry. *)
Lemma scanned_paths_are_distinct_witness :
  NoDup (List.map localFilePath mixedFiles).
Proof.
  apply (scanned_paths_are_distinct "/app"
           (initialMachine mixedFs emptyStore) mixedFiles
           (scanLocalMediaFiles "/app" (initialMachine mixedFs emptyStore)).2).
  - vm_compute. reflexivity.
  - intros [] names H; vm_compute in H; injection H as <-;
      apply (bool_decide_unpack _); vm_compute; exact I.
Defined.

(** A concrete instance: the first scan creates both directories. *)
Lemma scanning_again_gives_the_same_witness :
  let m1 := (scanLocalMediaFiles "/app" (initialMachine blankFs emptyStore)).2 in
  (scanLocalMediaFiles "/app" m1).1 = Return [] ∧
  fs (scanLocalMediaFiles "/app" m1).2 = fs m1.
Proof.
  apply (scanning_again_gives_the_same "/app"
           (initialMachine blankFs emptyStore) (Return [])
           (scanLocalMediaFiles "/app" (initialMachine blankFs emptyStore)).2
           (scanLocalMediaFiles "/app" (initialMachine blankFs emptyStore)).2).
  - vm_compute. reflexivity.
  - vm_compute. reflexivity.
Defined.

(** A concrete instance: the images directory of [unreadableFs] cannot be
    listed. *)
Lemma scan_failure_ends_the_run_witness :
  let m := initialMachine unreadableFs emptyStore in
  ∃ m' new,
    syncLocalMediaFiles "/app" m =
      (Return {| added := 0; removed := 0; unchanged := 0;
                 errors := ["Sync failed: Error: EACCES: permission denied, scandir"] |},
       m') ∧
    store m' = store m ∧
    trace m' = (trace m ++ new)%list ∧
    Forall (λ e, isStoreCall e = false) new ∧
    ConsoleError "Sync failed: Error: EACCES: permission denied, scandir" ∈ new.
Proof.
  apply (scan_failure_ends_the_run "/app" (initialMachine unreadableFs emptyStore)
           "Error: EACCES: permission denied, scandir"
           (scanLocalMediaFiles "/app"
              (startRun (initialMachine unreadableFs emptyStore))).2).
  vm_compute. reflexivity.
Defined.

(** A concrete instance: the files of [mixedFs] in front of a store that is
    down. *)
Lemma listing_failure_ends_the_run_before_the_passes_witness :
  let m := initialMachine mixedFs Down in
  ∃ m' new,
    syncLocalMediaFiles "/app" m =
      (Return {| added := 0; removed := 0; unchanged := 0;
                 errors := ["Sync failed: Error: connection refused"] |}, m') ∧
    store m' = Down ∧
    trace m' = (trace m ++ new)%list ∧
    List.filter isStoreCall new = [GetAllContent].
Proof.
  apply (listing_failure_ends_the_run_before_the_passes "/app"
           (initialMachine mixedFs Down) mixedFiles
           (scanLocalMediaFiles "/app" (startRun (initialMachine mixedFs Down))).2
           "Error: connection refused" Down).
  - vm_compute. reflexivity.
  - vm_compute. reflexivity.
Defined.

(** A concrete instance: the two records of [exportStore]. *)
Lemma run_keeps_local_paths_unique_witness :
  uniquePaths
    (records (store (syncLocalMediaFiles "/app" (initialMachine exportFs exportStore)).2)).
Proof.
  apply (run_keeps_local_paths_unique "/app" (initialMachine exportFs exportStore)).
  apply (bool_decide_unpack _). vm_compute. exact I.
Defined.

(** A concrete instance: the record of the file outside the media
    directories. *)
Lemma run_keeps_records_without_missing_file_witness :
  localRecord 1 "b" image "/srv/export/b.png"
    ∈ records (store (syncLocalMediaFiles "/app" (initialMachine exportFs exportStore)).2).
Proof.
  apply (run_keeps_records_without_missing_file "/app"
           (initialMachine exportFs exportStore)
           (localRecord 1 "b" image "/srv/export/b.png")).
  - apply list_elem_of_here.
  - right. reflexivity.
Defined.

(** A concrete instance: one scanned image, a record outside the media
    directories and a record whose file is gone. *)
Lemma run_brings_store_in_step_with_files_witness :
  let m := initialMachine exportFs exportStore in
  let m1 := (scanLocalMediaFiles "/app" m).2 in
  ∃ r m',
    syncLocalMediaFiles "/app" m = (Return r, m') ∧
    errors r = [] ∧ fs m' = fs m1 ∧
    (∀ info, info ∈ [aJpg] →
       ∃ c, c ∈ records (store m') ∧ c_localFilePath c = Value (localFilePath info)) ∧
    (∀ c, c ∈ records (store m') → truthy (c_localFilePath c) = true →
       pathOf (c_localFilePath c) ∈ List.map localFilePath [aJpg] ∨
       accessible (fs m') (pathOf (c_localFilePath c)) = true).
Proof.
  apply (run_brings_store_in_step_with_files "/app"
           (initialMachine exportFs exportStore) [aJpg]
           (scanLocalMediaFiles "/app" (initialMachine exportFs exportStore)).2).
  vm_compute. reflexivity.
Defined.

(** A concrete instance: the record created for [a.jpg]. *)
Lemma new_records_mirror_scanned_files_witness :
  let m := initialMachine exportFs exportStore in
  ∃ r m',
    syncLocalMediaFiles "/app" m = (Return r, m') ∧
    ∀ c, c ∈ records (store m') →
         c ∈ records (store m) ∨ ∃ info, info ∈ [aJpg] ∧ mirrors info c.
Proof.
  apply (new_records_mirror_scanned_files "/app"
           (initialMachine exportFs exportStore) [aJpg]
           (scanLocalMediaFiles "/app" (initialMachine exportFs exportStore)).2).
  vm_compute. reflexivity.
Defined.
